(** * A log-normal income model: the two calculators [app.py] and [App2.py]

    Both scripts evaluate a log-normal distribution with [mu = 10.45],
    [sigma = 0.95] on a display grid and between two slider bounds.
    [app.py] calls [scipy.stats.lognorm]; [App2.py] writes the density and
    the cumulative function out with NumPy primitives.

    Finite floating-point values are carried as exact reals; the IEEE
    specials that NumPy produces at the left edge ([log 0 = -inf], and what
    follows from it) are kept as constructors of their own.  Rounding and
    overflow of finite values are outside the model. *)

From Stdlib Require Import Reals Lra Lia List ZArith QArith Qreals.
Import ListNotations.
Local Open Scope R_scope.

(** ** NumPy's [float64] values *)

Module Float64.

Inductive float64 : Type :=
| Fin (r : R)
| PInf
| NInf
| NaN.

(** Sign of a finite value, as the special-value rules need it.  The sign
    of a zero is not tracked: a zero counts as [+0]. *)
Definition Rsign (r : R) : comparison :=
  match total_order_T r 0 with
  | inleft (left _) => Lt
  | inleft (right _) => Eq
  | inright _ => Gt
  end.

Definition fneg (a : float64) : float64 :=
  match a with
  | Fin x => Fin (- x)
  | PInf => NInf
  | NInf => PInf
  | NaN => NaN
  end.

Definition fadd (a b : float64) : float64 :=
  match a, b with
  | NaN, _ | _, NaN => NaN
  | Fin x, Fin y => Fin (x + y)
  | PInf, NInf | NInf, PInf => NaN
  | PInf, _ | _, PInf => PInf
  | NInf, _ | _, NInf => NInf
  end.

Definition fsub (a b : float64) : float64 := fadd a (fneg b).

(** An infinity times a finite value of the given sign. *)
Definition inf_times (pos : bool) (s : comparison) : float64 :=
  match s with
  | Eq => NaN
  | Gt => if pos then PInf else NInf
  | Lt => if pos then NInf else PInf
  end.

Definition fmul (a b : float64) : float64 :=
  match a, b with
  | NaN, _ | _, NaN => NaN
  | Fin x, Fin y => Fin (x * y)
  | Fin x, PInf | PInf, Fin x => inf_times true (Rsign x)
  | Fin x, NInf | NInf, Fin x => inf_times false (Rsign x)
  | PInf, PInf | NInf, NInf => PInf
  | PInf, NInf | NInf, PInf => NInf
  end.

Definition fdiv (a b : float64) : float64 :=
  match a, b with
  | NaN, _ | _, NaN => NaN
  | Fin x, Fin y =>
      match Rsign y with
      | Eq => inf_times true (Rsign x)
      | _ => Fin (x / y)
      end
  | Fin _, (PInf | NInf) => Fin 0
  | PInf, Fin y => match Rsign y with Lt => NInf | _ => PInf end
  | NInf, Fin y => match Rsign y with Lt => PInf | _ => NInf end
  | (PInf | NInf), (PInf | NInf) => NaN
  end.

(** [a ** 2] *)
Definition fsquare (a : float64) : float64 := fmul a a.

(** [np.log]: [-inf] at zero, [nan] below it. *)
Definition np_log (a : float64) : float64 :=
  match a with
  | Fin x =>
      match Rsign x with
      | Gt => Fin (ln x)
      | Eq => NInf
      | Lt => NaN
      end
  | PInf => PInf
  | NInf | NaN => NaN
  end.

Definition np_exp (a : float64) : float64 :=
  match a with
  | Fin x => Fin (exp x)
  | PInf => PInf
  | NInf => Fin 0
  | NaN => NaN
  end.

Definition np_tanh (a : float64) : float64 :=
  match a with
  | Fin x => Fin (tanh x)
  | PInf => Fin 1
  | NInf => Fin (-1)
  | NaN => NaN
  end.

Definition np_sqrt (a : float64) : float64 :=
  match a with
  | Fin x =>
      match Rsign x with
      | Lt => NaN
      | _ => Fin (sqrt x)
      end
  | PInf => PInf
  | NInf | NaN => NaN
  end.

Definition np_pi : float64 := Fin PI.

(** A Python [int] or [float] literal used in a NumPy expression. *)
Definition lit (z : Z) : float64 := Fin (IZR z).

(** IEEE comparisons: anything compared with [nan] is false. *)
Definition flt (a b : float64) : Prop :=
  match a, b with
  | NaN, _ | _, NaN => False
  | Fin x, Fin y => x < y
  | NInf, (Fin _ | PInf) => True
  | Fin _, PInf => True
  | _, _ => False
  end.

Definition feq (a b : float64) : Prop :=
  match a, b with
  | NaN, _ | _, NaN => False
  | Fin x, Fin y => x = y
  | PInf, PInf | NInf, NInf => True
  | _, _ => False
  end.

Definition fle (a b : float64) : Prop := flt a b \/ feq a b.

Definition is_finite (a : float64) : Prop :=
  match a with Fin _ => True | _ => False end.

End Float64.

Export Float64.

Declare Scope float_scope.
Delimit Scope float_scope with fl.
Bind Scope float_scope with float64.
Infix "+" := fadd : float_scope.
Infix "-" := fsub : float_scope.
Infix "*" := fmul : float_scope.
Infix "/" := fdiv : float_scope.
Notation "- a" := (fneg a) : float_scope.

(** ** [numpy.linspace]

    [num] evenly spaced samples from [start] to [stop], the last sample
    overwritten with [stop] as NumPy does when [endpoint] holds. *)

Module NumPy.

Fixpoint set_last (stop : R) (l : list R) : list R :=
  match l with
  | [] => []
  | [_] => [stop]
  | x :: tl => x :: set_last stop tl
  end.

Definition linspace (start stop : R) (num : nat) : list R :=
  let div := (num - 1)%nat in
  let step := (stop - start) / INR div in
  let y := map (fun i => INR i * step + start) (seq 0 num) in
  match num with
  | O | S O => y
  | _ => set_last stop y
  end.

(** [np.max] of a one-dimensional array: a [nan] entry makes the result
    [nan]; an empty array raises [ValueError], rendered as [None]. *)
Definition fmax2 (a b : float64) : float64 :=
  match a, b with
  | NaN, _ | _, NaN => NaN
  | Fin x, Fin y => Fin (Rmax x y)
  | PInf, _ | _, PInf => PInf
  | NInf, o | o, NInf => o
  end.

Definition np_max (a : list float64) : option float64 :=
  match a with
  | [] => None
  | x :: tl => Some (fold_left fmax2 tl x)
  end.

End NumPy.

(** ** [App2.py]: the log-normal functions written out with NumPy *)

Module App2.

Definition total_pop : Z := 20000000.

Definition income_range : list R := NumPy.linspace 1 300000 1000.

Definition mu : R := 10.45.
Definition sigma : R := 0.95.
Definition scale : float64 := np_exp (Fin mu).

(** [(1 / (x * s * np.sqrt(2 * np.pi))) *
     np.exp(-((np.log(x) - np.log(scale))**2) / (2 * s**2))] *)
Definition lognorm_pdf (x s scale : float64) : float64 :=
  ((lit 1 / (x * s * np_sqrt (lit 2 * np_pi))) *
   np_exp (- (fsquare (np_log x - np_log scale)) / (lit 2 * fsquare s)))%fl.

(** [z = (np.log(x) - np.log(scale)) / s]
    [0.5 * (1 + np.tanh(np.sqrt(2) * z / 2)
              + np.sqrt(2/np.pi) * np.exp(-z**2/2))] *)
Definition lognorm_cdf (x s scale : float64) : float64 :=
  let z := ((np_log x - np_log scale) / s)%fl in
  (Fin 0.5 * (lit 1 + np_tanh (np_sqrt (lit 2) * z / lit 2)
              + np_sqrt (lit 2 / np_pi) * np_exp (- (fsquare z) / lit 2)))%fl.

(** [pdf = lognorm_pdf(income_range, sigma, scale)], element by element. *)
Definition pdf : list float64 :=
  map (fun x => lognorm_pdf (Fin x) (Fin sigma) scale) income_range.

Definition cdf : list float64 :=
  map (fun x => lognorm_cdf (Fin x) (Fin sigma) scale) income_range.

(** The three result lines, as functions of the two slider values. *)
Definition prob (min_income max_income : R) : float64 :=
  (lognorm_cdf (Fin max_income) (Fin sigma) scale
   - lognorm_cdf (Fin min_income) (Fin sigma) scale)%fl.

Definition people (min_income max_income : R) : float64 :=
  (prob min_income max_income * lit total_pop)%fl.

Definition percent (min_income max_income : R) : float64 :=
  (prob min_income max_income * lit 100)%fl.

(** The value of [lognorm_cdf] on a positive finite income, as a real. *)
Definition cdf_real (x : R) : R :=
  let z := (ln x - mu) / sigma in
  0.5 * (1 + tanh (sqrt 2 * z / 2) + sqrt (2 / PI) * exp (- (z * z) / 2)).

(** [density_scaled = pdf / np.max(pdf) * 30], the density trace. *)
Definition density_scaled : option (list float64) :=
  match NumPy.np_max pdf with
  | Some m => Some (map (fun v => (v / m * lit 30)%fl) pdf)
  | None => None
  end.

(** [y=cdf*100], the cumulative trace. *)
Definition cdf_percent : list float64 :=
  map (fun v => (v * lit 100)%fl) cdf.

End App2.

(** ** The SciPy functions [app.py] calls

    [scipy.stats.lognorm] is a library, not part of the repository.  It is
    modelled here as its reference documents it: [lognorm.cdf] and
    [lognorm.pdf] shift and scale their argument ([loc = 0] here), answer
    [nan] for invalid parameters and a fixed value outside the support
    [(0, +oo)], and otherwise evaluate
    [_cdf(y, s) = ndtr(log(y) / s)] and
    [_pdf(y, s) = exp(-log(y)**2 / (2*s**2) - log(s*y*sqrt(2*pi)))],
    where [ndtr(x) = (1 + erf(x / sqrt(2))) / 2] and
    [erf(x) = 2/sqrt(pi) * integral of exp(-t**2) from 0 to x]. *)

Module Scipy.

Definition erf_kernel (t : R) : R := exp (- (t * t)).

Lemma erf_kernel_continuity : continuity erf_kernel.
Proof. unfold erf_kernel. reg. Qed.

Lemma erf_kernel_integrable (a b : R) : Riemann_integrable erf_kernel a b.
Proof.
  destruct (Rle_dec a b) as [Hab | Hab].
  - apply continuity_implies_RiemannInt; [exact Hab|].
    intros x _. apply erf_kernel_continuity.
  - apply RiemannInt_P1, continuity_implies_RiemannInt; [lra|].
    intros x _. apply erf_kernel_continuity.
Qed.

Definition erf (x : R) : R :=
  2 / sqrt PI * RiemannInt (erf_kernel_integrable 0 x).

Definition ndtr (x : R) : R := (1 + erf (x / sqrt 2)) / 2.

(** Shape and scale must both be positive. *)
Definition argcheck (s scale : R) : bool :=
  match Rsign s, Rsign scale with
  | Gt, Gt => true
  | _, _ => false
  end.

Definition lognorm_cdf (x s scale : R) : float64 :=
  let y := x / scale in
  if argcheck s scale then
    match Rsign y with
    | Gt => Fin (ndtr (ln y / s))
    | _ => Fin 0
    end
  else NaN.

Definition lognorm_pdf (x s scale : R) : float64 :=
  let y := x / scale in
  if argcheck s scale then
    match Rsign y with
    | Gt =>
        Fin (exp (- (ln y * ln y) / (2 * (s * s))
                  - ln (s * y * sqrt (2 * PI))) / scale)
    | Eq => Fin (0 / scale)
    | Lt => Fin 0
    end
  else NaN.

End Scipy.

(** ** [app.py]: the same model through [scipy.stats.lognorm] *)

Module App.

Definition mu : R := 10.45.
Definition sigma : R := 0.95.
Definition total_population : Z := 20000000.

Definition income_range : list R := NumPy.linspace 0 300000 1000.

Definition pdf_values : list float64 :=
  map (fun x => Scipy.lognorm_pdf x sigma (exp mu)) income_range.

Definition cdf_values : list float64 :=
  map (fun x => Scipy.lognorm_cdf x sigma (exp mu)) income_range.

Definition prob_between (min_income max_income : R) : float64 :=
  (Scipy.lognorm_cdf max_income sigma (exp mu)
   - Scipy.lognorm_cdf min_income sigma (exp mu))%fl.

Definition num_people (min_income max_income : R) : float64 :=
  (prob_between min_income max_income * lit total_population)%fl.

Definition percentage (min_income max_income : R) : float64 :=
  (prob_between min_income max_income * lit 100)%fl.


(** [y=cdf_values*100], the cumulative trace. *)
Definition cdf_percent : list float64 :=
  map (fun v => (v * lit 100)%fl) cdf_values.

End App.

(** ** The specification's operations, in its own words *)

Module Spec.

Definition shapeParameter : R := 0.95.
Definition scale : R := exp 10.45.
Definition totalPopulation : Z := 20000000.

(** [f(x) = 1 / (x sigma sqrt(2 pi))
            * exp(-(ln(x) - ln(scale))^2 / (2 sigma^2))] *)
Definition density (x : R) : R :=
  1 / (x * shapeParameter * sqrt (2 * PI))
  * exp (- ((ln x - ln scale) * (ln x - ln scale))
         / (2 * (shapeParameter * shapeParameter))).

End Spec.

(** ** Rational enclosures of [exp]

    The partial sums of the series of [exp (- u)] alternate around it for
    [u >= 0]; evaluated on a rational they give certified bounds. *)

Module ExpBounds.

Fixpoint expm_term (k : nat) (u : R) : R :=
  match k with
  | O => 1
  | S j => expm_term j u * (- u) / INR (S j)
  end.

Fixpoint expm_poly (n : nat) (u : R) : R :=
  match n with
  | O => 1
  | S k => expm_poly k u + expm_term (S k) u
  end.

(** The same partial sum in nested form, [1 - u/1 (1 - u/2 (1 - ...))],
    started at index [k]; this is the form evaluated on rationals. *)
Fixpoint expm_horner (k m : nat) (u : R) : R :=
  match m with
  | O => 1
  | S m' => 1 + (- u) / INR (S k) * expm_horner (S k) m' u
  end.

Fixpoint expm_hornerQ (k m : nat) (u : Q) : Q :=
  match m with
  | O => 1%Q
  | S m' =>
      (1 + (- u) / inject_Z (Z.of_nat (S k)) * expm_hornerQ (S k) m' u)%Q
  end.

Definition expm_polyQ (n : nat) (u : Q) : Q := expm_hornerQ 0 n u.

End ExpBounds.

Import ExpBounds.

(** ** Polynomial lower bounds of the error-function integral *)

Module ErfBounds.

(** Term-by-term antiderivative of the partial sums of [exp (- t^2)]. *)
Fixpoint erf_poly (n : nat) (t : R) : R :=
  match n with
  | O => t
  | S k => erf_poly k t + t * expm_term (S k) (t * t) / INR (2 * S k + 1)
  end.

(** Nested form of [erf_poly n t / t] in [u = t^2], started at index [k]. *)
Fixpoint erf_horner (k m : nat) (u : R) : R :=
  match m with
  | O => / INR (2 * k + 1)
  | S m' => / INR (2 * k + 1) + (- u) / INR (S k) * erf_horner (S k) m' u
  end.

Fixpoint erf_hornerQ (k m : nat) (u : Q) : Q :=
  match m with
  | O => (/ inject_Z (Z.of_nat (2 * k + 1)))%Q
  | S m' =>
      (/ inject_Z (Z.of_nat (2 * k + 1))
       + (- u) / inject_Z (Z.of_nat (S k)) * erf_hornerQ (S k) m' u)%Q
  end.

Definition erf_polyQ (n : nat) (t : Q) : Q :=
  (t * erf_hornerQ 0 n (t * t))%Q.

End ErfBounds.

Import ErfBounds.

(** ** Sign lemmas for the special-value rules *)

Lemma Rsign_pos (r : R) : 0 < r -> Rsign r = Gt.
Proof.
  intros H. unfold Rsign.
  destruct (total_order_T r 0) as [[Hlt | Heq] | Hgt]; try reflexivity; lra.
Qed.

Lemma Rsign_zero : Rsign 0 = Eq.
Proof.
  unfold Rsign.
  destruct (total_order_T 0 0) as [[Hlt | Heq] | Hgt]; try reflexivity; lra.
Qed.

Lemma Rsign_neg (r : R) : r < 0 -> Rsign r = Lt.
Proof.
  intros H. unfold Rsign.
  destruct (total_order_T r 0) as [[Hlt | Heq] | Hgt]; try reflexivity; lra.
Qed.

Lemma sigma_pos : 0 < App2.sigma.
Proof. unfold App2.sigma. lra. Qed.

Lemma sqrt2_pos : 0 < sqrt 2.
Proof. apply sqrt_lt_R0. lra. Qed.

Lemma two_over_pi_pos : 0 < 2 / PI.
Proof. apply Rdiv_lt_0_compat; [lra | apply PI_RGT_0]. Qed.

(** Positivity of the constants that meet a sign test. *)
Ltac pos_tac :=
  first
    [ assumption
    | lra
    | apply exp_pos
    | apply PI_RGT_0
    | apply sigma_pos
    | apply sqrt2_pos
    | apply two_over_pi_pos
    | apply sqrt_lt_R0; pos_tac
    | apply Rmult_lt_0_compat; pos_tac
    | apply Rdiv_lt_0_compat; pos_tac ].

(** Evaluate a [float64] expression whose sign tests are all on positive
    values. *)
Ltac fin_eval :=
  repeat
    (cbn [fadd fsub fneg fmul fdiv fsquare np_log np_exp np_tanh np_sqrt
          np_pi lit inf_times];
     match goal with
     | |- context [Rsign ?r] => rewrite (Rsign_pos r) by pos_tac
     end);
  cbn [fadd fsub fneg fmul fdiv fsquare np_log np_exp np_tanh np_sqrt
       np_pi lit inf_times].

(** On a positive finite income no special value arises in [lognorm_cdf]. *)
Lemma App2_lognorm_cdf_finite (x : R) :
  0 < x ->
  App2.lognorm_cdf (Fin x) (Fin App2.sigma) App2.scale = Fin (App2.cdf_real x).
Proof.
  intros Hx.
  unfold App2.lognorm_cdf, App2.scale, App2.cdf_real.
  fin_eval. rewrite ln_exp. reflexivity.
Qed.

(** ** The partial sums of [exp (- u)] alternate around it *)

Lemma INR_S_neq_0 (j : nat) : INR (S j) <> 0.
Proof. apply not_0_INR. discriminate. Qed.

Lemma expm_term_0 (k : nat) : expm_term (S k) 0 = 0.
Proof.
  cbn [expm_term]. unfold Rdiv. rewrite Ropp_0. ring.
Qed.

Lemma expm_poly_0 (n : nat) : expm_poly n 0 = 1.
Proof.
  induction n as [|n IH]; [reflexivity|].
  cbn [expm_poly]. rewrite IH, expm_term_0. ring.
Qed.

Lemma expm_term_deriv (j : nat) (u : R) :
  derivable_pt_lim (expm_term (S j)) u (- expm_term j u).
Proof.
  induction j as [|j IH].
  - apply derivable_pt_lim_ext with (f := (- id)%F).
    + intros z. unfold opp_fct, id. cbn. field.
    + replace (- expm_term 0 u) with (- 1) by reflexivity.
      apply derivable_pt_lim_opp, derivable_pt_lim_id.
  - set (c := INR (S (S j))).
    assert (Hc : c <> 0) by apply INR_S_neq_0.
    apply derivable_pt_lim_ext
      with (f := (expm_term (S j) * mult_real_fct (- / c) id)%F).
    + intros z. unfold mult_fct, mult_real_fct, id.
      change (expm_term (S (S j)) z) with (expm_term (S j) z * (- z) / c).
      field. exact Hc.
    + replace (- expm_term (S j) u)
        with (- expm_term j u * mult_real_fct (- / c) id u
              + expm_term (S j) u * (- / c * 1)).
      * apply derivable_pt_lim_mult; [exact IH|].
        apply derivable_pt_lim_scal, derivable_pt_lim_id.
      * unfold mult_real_fct, id.
        change (expm_term (S j) u) with (expm_term j u * (- u) / INR (S j)).
        assert (Hj : INR (S j) <> 0) by apply INR_S_neq_0.
        assert (Hcj : c = INR (S j) + 1) by (unfold c; rewrite (S_INR (S j)); ring).
        rewrite Hcj in *. field. split; assumption.
Qed.

Lemma expm_poly_deriv (n : nat) (u : R) :
  derivable_pt_lim (expm_poly (S n)) u (- expm_poly n u).
Proof.
  induction n as [|n IH].
  - apply derivable_pt_lim_ext with (f := (fct_cte 1 + expm_term 1)%F).
    + intros z. reflexivity.
    + replace (- expm_poly 0 u) with (0 + - expm_term 0 u) by (cbn; ring).
      apply derivable_pt_lim_plus;
        [apply derivable_pt_lim_const | apply expm_term_deriv].
  - apply derivable_pt_lim_ext
      with (f := (expm_poly (S n) + expm_term (S (S n)))%F).
    + intros z. reflexivity.
    + replace (- expm_poly (S n) u)
        with (- expm_poly n u + - expm_term (S n) u) by (cbn [expm_poly]; ring).
      apply derivable_pt_lim_plus; [exact IH | apply expm_term_deriv].
Qed.

Lemma exp_neg_deriv (u : R) :
  derivable_pt_lim (fun t => exp (- t)) u (- exp (- u)).
Proof.
  apply derivable_pt_lim_ext with (f := comp exp (- id)%F).
  - intros z. reflexivity.
  - replace (- exp (- u)) with (exp ((- id)%F u) * - 1)
      by (unfold opp_fct, id; ring).
    apply derivable_pt_lim_comp.
    + apply derivable_pt_lim_opp, derivable_pt_lim_id.
    + apply derivable_pt_lim_exp.
Qed.

(** A function with non-negative derivative on [[0, +oo)] stays above its
    value at [0]. *)
Lemma rises_from_zero (g g' : R -> R) :
  (forall c, 0 <= c -> derivable_pt_lim g c (g' c)) ->
  (forall c, 0 <= c -> 0 <= g' c) ->
  forall u, 0 <= u -> g 0 <= g u.
Proof.
  intros Hd Hpos u [Hu | <-]; [|lra].
  destruct (MVT_cor2 g g' 0 u Hu) as (c & Heq & Hc).
  - intros c Hc. apply Hd. lra.
  - assert (0 <= g' c) by (apply Hpos; lra). nra.
Qed.

Lemma expm_poly_alternates (n : nat) :
  forall u, 0 <= u ->
    (Nat.even n = true -> exp (- u) <= expm_poly n u) /\
    (Nat.even n = false -> expm_poly n u <= exp (- u)).
Proof.
  induction n as [|n IH]; intros u Hu.
  - split; [intros _ | discriminate]. cbn.
    destruct Hu as [Hu | <-].
    + rewrite <- exp_0. left. apply exp_increasing. lra.
    + rewrite Ropp_0, exp_0. lra.
  - rewrite Nat.even_succ, <- Nat.negb_even.
    destruct (Nat.even n) eqn:En; cbn [negb]; split; try discriminate; intros _.
    + (* n even: the next partial sum is below *)
      pose (g := fun t => exp (- t) - expm_poly (S n) t).
      pose (g' := fun t => - exp (- t) - - expm_poly n t).
      assert (H0 : g 0 <= g u).
      { apply (rises_from_zero g g'); [| |exact Hu].
        - intros c _. unfold g, g'.
          apply derivable_pt_lim_minus; [apply exp_neg_deriv | apply expm_poly_deriv].
        - intros c Hc. unfold g'. destruct (IH c Hc) as [H _].
          specialize (H eq_refl). lra. }
      unfold g in H0. rewrite Ropp_0, exp_0, expm_poly_0 in H0. lra.
    + (* n odd: the next partial sum is above *)
      pose (g := fun t => expm_poly (S n) t - exp (- t)).
      pose (g' := fun t => - expm_poly n t - - exp (- t)).
      assert (H0 : g 0 <= g u).
      { apply (rises_from_zero g g'); [| |exact Hu].
        - intros c _. unfold g, g'.
          apply derivable_pt_lim_minus; [apply expm_poly_deriv | apply exp_neg_deriv].
        - intros c Hc. unfold g'. destruct (IH c Hc) as [_ H].
          specialize (H eq_refl). lra. }
      unfold g in H0. rewrite Ropp_0, exp_0, expm_poly_0 in H0. lra.
Qed.

Lemma Q2R_inject_nat (n : nat) : Q2R (inject_Z (Z.of_nat n)) = INR n.
Proof.
  unfold Q2R, inject_Z. cbn [Qnum Qden].
  rewrite INR_IZR_INZ. field.
Qed.

Lemma Q2R_1 : Q2R 1 = 1.
Proof. unfold Q2R. cbn. field. Qed.

Lemma expm_horner_tail (m : nat) (u : R) :
  forall k,
    expm_poly (k + m) u
    = expm_poly k u + expm_term k u * (expm_horner k m u - 1).
Proof.
  induction m as [|m IH]; intros k.
  - rewrite Nat.add_0_r. cbn [expm_horner]. ring.
  - replace (k + S m)%nat with (S k + m)%nat by lia.
    rewrite IH. cbn [expm_poly expm_term expm_horner].
    field. apply INR_S_neq_0.
Qed.

Lemma expm_horner_poly (n : nat) (u : R) :
  expm_horner 0 n u = expm_poly n u.
Proof.
  pose proof (expm_horner_tail n u 0%nat) as H.
  cbn [Nat.add expm_poly expm_term] in H. lra.
Qed.

Lemma expm_hornerQ_correct (m : nat) (u : Q) :
  forall k, Q2R (expm_hornerQ k m u) = expm_horner k m (Q2R u).
Proof.
  induction m as [|m IH]; intros k.
  - apply Q2R_1.
  - cbn [expm_hornerQ expm_horner].
    rewrite Q2R_plus, Q2R_mult, Q2R_div, Q2R_opp, IH, Q2R_inject_nat, Q2R_1;
      [reflexivity|].
    intros H. unfold Qeq, inject_Z in H. cbn [Qnum Qden] in H. lia.
Qed.

Lemma expm_polyQ_correct (n : nat) (u : Q) :
  Q2R (expm_polyQ n u) = expm_poly n (Q2R u).
Proof.
  unfold expm_polyQ. rewrite expm_hornerQ_correct. apply expm_horner_poly.
Qed.

(** ** Certified numeric bounds *)

Lemma Q2R_0 : Q2R 0 = 0.
Proof. unfold Q2R. cbn. field. Qed.

Lemma exp_neg_ge (n : nat) (q lo : Q) :
  Qle_bool 0 q = true -> Nat.even n = false ->
  Qle_bool lo (expm_polyQ n q) = true -> Q2R lo <= exp (- Q2R q).
Proof.
  intros Hq Hn Hlo.
  apply Qle_bool_imp_le, Qle_Rle in Hq, Hlo.
  rewrite expm_polyQ_correct in Hlo. rewrite Q2R_0 in Hq.
  destruct (expm_poly_alternates n (Q2R q) Hq) as [_ H].
  specialize (H Hn). lra.
Qed.

Lemma exp_neg_le (n : nat) (q hi : Q) :
  Qle_bool 0 q = true -> Nat.even n = true ->
  Qle_bool (expm_polyQ n q) hi = true -> exp (- Q2R q) <= Q2R hi.
Proof.
  intros Hq Hn Hhi.
  apply Qle_bool_imp_le, Qle_Rle in Hq, Hhi.
  rewrite expm_polyQ_correct in Hhi. rewrite Q2R_0 in Hq.
  destruct (expm_poly_alternates n (Q2R q) Hq) as [H _].
  specialize (H Hn). lra.
Qed.

(** [exp_below n lo q] proves [lo <= exp (- q)], [exp_above n hi q] proves
    [exp (- q) <= hi], from the partial sum of order [n]. *)
Ltac q2r_lit x q :=
  replace x with (Q2R q) by (unfold Q2R; cbn [Qnum Qden]; lra).

Ltac exp_below n lo q :=
  match goal with
  | |- ?l <= exp (- ?a) =>
      q2r_lit l lo; q2r_lit a q;
      apply (exp_neg_ge n); vm_compute; reflexivity
  end.

Ltac exp_above n hi q :=
  match goal with
  | |- exp (- ?a) <= ?h =>
      q2r_lit h hi; q2r_lit a q;
      apply (exp_neg_le n); vm_compute; reflexivity
  end.

Lemma exp_mono_le (x y : R) : x <= y -> exp x <= exp y.
Proof.
  intros [H | ->]; [left; apply exp_increasing; exact H | right; reflexivity].
Qed.

Lemma ln_mono_le (x y : R) : 0 < x -> x <= y -> ln x <= ln y.
Proof.
  intros Hx [H | ->]; [left; apply ln_increasing; assumption | right; reflexivity].
Qed.

Lemma ln_ge_of_exp_neg (x a : R) : 0 < x -> / x <= exp (- a) -> a <= ln x.
Proof.
  intros Hx H.
  rewrite <- (ln_exp a). apply ln_mono_le; [apply exp_pos|].
  rewrite exp_Ropp in H.
  pose proof (exp_pos a) as Ha.
  apply Rinv_le_contravar in H; [|apply Rinv_0_lt_compat; exact Hx].
  rewrite !Rinv_inv in H. exact H.
Qed.

Lemma ln_le_of_exp_neg (x a : R) : 0 < x -> exp (- a) <= / x -> ln x <= a.
Proof.
  intros Hx H.
  rewrite <- (ln_exp a). apply ln_mono_le; [exact Hx|].
  rewrite exp_Ropp in H.
  pose proof (exp_pos a) as Ha.
  apply Rinv_le_contravar in H; [|apply Rinv_0_lt_compat; exact Ha].
  rewrite !Rinv_inv in H. exact H.
Qed.

Lemma PI_bounds : 3.1415 <= PI <= 3.1416.
Proof.
  pose proof (PI_2_3_7_ineq 2) as H.
  unfold sum_f_R0, tg_alt, PI_2_3_7_tg, Ratan_seq in H.
  cbn [Nat.mul Nat.add INR pow] in H.
  split; lra.
Qed.

Lemma sqrt2_bounds : 1.41 <= sqrt 2 <= 1.42.
Proof.
  pose proof sqrt2_pos as Hp.
  assert (Hs : sqrt 2 * sqrt 2 = 2) by (apply sqrt_def; lra).
  split; nra.
Qed.

Lemma sqrt_two_over_pi_bounds : 0.79 <= sqrt (2 / PI) <= 0.798.
Proof.
  pose proof PI_bounds as [Hlo Hhi].
  pose proof two_over_pi_pos as Hq.
  assert (Hp : 0 < sqrt (2 / PI)) by (apply sqrt_lt_R0; exact Hq).
  assert (Hs : sqrt (2 / PI) * sqrt (2 / PI) = 2 / PI)
    by (apply sqrt_def; lra).
  assert (Hm : 2 / PI * PI = 2) by (field; lra).
  split; nra.
Qed.

Lemma ln_90000_bounds : 11.3525 <= ln 90000 <= 11.4475.
Proof.
  split.
  - apply ln_ge_of_exp_neg; [lra|].
    exp_below 41%nat (1 # 90000)%Q (113525 # 10000)%Q.
  - apply ln_le_of_exp_neg; [lra|].
    exp_above 42%nat (1 # 90000)%Q (114475 # 10000)%Q.
Qed.

Lemma ln_300000_bounds : 12.5875 <= ln 300000 <= 12.635.
Proof.
  split.
  - apply ln_ge_of_exp_neg; [lra|].
    exp_below 45%nat (1 # 300000)%Q (125875 # 10000)%Q.
  - apply ln_le_of_exp_neg; [lra|].
    exp_above 46%nat (1 # 300000)%Q (12635 # 1000)%Q.
Qed.

(** [tanh] through a single decaying exponential. *)
Lemma tanh_exp_neg (y : R) :
  tanh y = (1 - exp (- (2 * y))) / (1 + exp (- (2 * y))).
Proof.
  unfold tanh, sinh, cosh.
  replace (- (2 * y)) with (- y + - y) by ring.
  rewrite exp_plus.
  pose proof (exp_pos y) as Hy. pose proof (exp_pos (- y)) as Hny.
  assert (H1 : exp (- y) * exp y = 1)
    by (rewrite <- exp_plus, Rplus_opp_l; apply exp_0).
  assert (H2 : exp y = / exp (- y)).
  { apply Rmult_eq_reg_l with (exp (- y)); [|lra].
    rewrite H1. field. lra. }
  rewrite H2. field. nra.
Qed.

(** ** The shape of [App2.lognorm_cdf] *)

(** Around one standard deviation above the median the value is above 1. *)
Lemma cdf_shape_above_one (z : R) :
  0.95 <= z <= 1.05 ->
  1.01 <= 0.5 * (1 + tanh (sqrt 2 * z / 2)
                 + sqrt (2 / PI) * exp (- (z * z) / 2)).
Proof.
  intros [Hlo Hhi].
  pose proof sqrt2_bounds as [Hs1 Hs2].
  pose proof sqrt_two_over_pi_bounds as [Hr1 Hr2].
  rewrite tanh_exp_neg.
  set (t := exp (- (2 * (sqrt 2 * z / 2)))).
  set (g := exp (- (z * z) / 2)).
  assert (Ht0 : 0 < t) by apply exp_pos.
  assert (Ht : t <= 0.2625).
  { apply Rle_trans with (exp (- (1.3395))).
    - apply exp_mono_le. nra.
    - exp_above 8%nat (2625 # 10000)%Q (13395 # 10000)%Q. }
  assert (Hg : 0.5727 <= g).
  { apply Rle_trans with (exp (- (0.55125))).
    - exp_below 3%nat (5727 # 10000)%Q (55125 # 100000)%Q.
    - apply exp_mono_le. nra. }
  assert (Hd : 0.58 <= (1 - t) / (1 + t)).
  { apply Rmult_le_reg_r with (1 + t); [lra|].
    unfold Rdiv. rewrite Rmult_assoc, Rinv_l; lra. }
  assert (Hrg : 0.4524 <= sqrt (2 / PI) * g) by nra.
  lra.
Qed.

(** Further out it has dropped below 1 again. *)
Lemma cdf_shape_below_one (z : R) :
  2.25 <= z <= 2.3 ->
  0.5 * (1 + tanh (sqrt 2 * z / 2)
         + sqrt (2 / PI) * exp (- (z * z) / 2)) <= 0.996.
Proof.
  intros [Hlo Hhi].
  pose proof sqrt2_bounds as [Hs1 Hs2].
  pose proof sqrt_two_over_pi_bounds as [Hr1 Hr2].
  rewrite tanh_exp_neg.
  set (t := exp (- (2 * (sqrt 2 * z / 2)))).
  set (g := exp (- (z * z) / 2)).
  assert (Hg0 : 0 < g) by apply exp_pos.
  assert (Ht : 0.0381 <= t).
  { apply Rle_trans with (exp (- (3.266))).
    - exp_below 15%nat (381 # 10000)%Q (3266 # 1000)%Q.
    - apply exp_mono_le. nra. }
  assert (Hg : g <= 0.0796).
  { apply Rle_trans with (exp (- (2.53125))).
    - apply exp_mono_le. nra.
    - exp_above 12%nat (796 # 10000)%Q (253125 # 100000)%Q. }
  assert (Hd : (1 - t) / (1 + t) <= 0.927).
  { apply Rmult_le_reg_r with (1 + t); [lra|].
    unfold Rdiv. rewrite Rmult_assoc, Rinv_l; lra. }
  assert (Hrg : sqrt (2 / PI) * g <= 0.0636) by nra.
  lra.
Qed.

Lemma App2_cdf_real_90000 : 1.01 <= App2.cdf_real 90000.
Proof.
  unfold App2.cdf_real. cbv zeta.
  apply cdf_shape_above_one.
  pose proof ln_90000_bounds as [H1 H2].
  unfold App2.mu, App2.sigma. split.
  - apply Rmult_le_reg_r with 0.95; [lra|].
    unfold Rdiv. rewrite Rmult_assoc, Rinv_l; lra.
  - apply Rmult_le_reg_r with 0.95; [lra|].
    unfold Rdiv. rewrite Rmult_assoc, Rinv_l; lra.
Qed.

Lemma App2_cdf_real_300000 : App2.cdf_real 300000 <= 0.996.
Proof.
  unfold App2.cdf_real. cbv zeta.
  apply cdf_shape_below_one.
  pose proof ln_300000_bounds as [H1 H2].
  unfold App2.mu, App2.sigma. split.
  - apply Rmult_le_reg_r with 0.95; [lra|].
    unfold Rdiv. rewrite Rmult_assoc, Rinv_l; lra.
  - apply Rmult_le_reg_r with 0.95; [lra|].
    unfold Rdiv. rewrite Rmult_assoc, Rinv_l; lra.
Qed.

Lemma App2_cdf_real_median :
  App2.cdf_real (exp App2.mu) = (1 + sqrt (2 / PI)) / 2.
Proof.
  unfold App2.cdf_real. cbv zeta. rewrite ln_exp.
  replace ((App2.mu - App2.mu) / App2.sigma) with 0
    by (unfold Rdiv; ring).
  replace (sqrt 2 * 0 / 2) with 0 by (unfold Rdiv; ring).
  replace (- (0 * 0) / 2) with 0 by (unfold Rdiv; ring).
  assert (Ht : tanh 0 = 0).
  { unfold tanh, sinh. rewrite Ropp_0, exp_0. unfold Rdiv. ring. }
  rewrite Ht, exp_0. lra.
Qed.

(** ** [App2.lognorm_cdf] at the left edge and on non-negative incomes *)

(** At [x = 0] the logarithm is [-inf]; the hyperbolic tangent saturates at
    [-1] and the exponential at [0], so the value is exactly [0]. *)
Lemma App2_lognorm_cdf_zero :
  App2.lognorm_cdf (Fin 0) (Fin App2.sigma) App2.scale = Fin 0.
Proof.
  unfold App2.lognorm_cdf, App2.scale.
  cbn [np_exp np_log]. rewrite Rsign_zero, (Rsign_pos _ (exp_pos App2.mu)).
  cbn [fsub fadd fneg fdiv]. rewrite (Rsign_pos _ sigma_pos).
  fin_eval. f_equal. lra.
Qed.

Lemma App2_lognorm_cdf_is_finite (x : R) :
  0 <= x ->
  exists r, App2.lognorm_cdf (Fin x) (Fin App2.sigma) App2.scale = Fin r.
Proof.
  intros [Hx | <-].
  - exists (App2.cdf_real x). apply App2_lognorm_cdf_finite. exact Hx.
  - exists 0. apply App2_lognorm_cdf_zero.
Qed.

Lemma App_sigma_pos : 0 < App.sigma.
Proof. unfold App.sigma. lra. Qed.

Lemma App_argcheck : Scipy.argcheck App.sigma (exp App.mu) = true.
Proof.
  unfold Scipy.argcheck.
  rewrite (Rsign_pos _ App_sigma_pos), (Rsign_pos _ (exp_pos App.mu)).
  reflexivity.
Qed.

Lemma App_lognorm_cdf_is_finite (x : R) :
  exists r, Scipy.lognorm_cdf x App.sigma (exp App.mu) = Fin r.
Proof.
  unfold Scipy.lognorm_cdf. cbv zeta. rewrite App_argcheck.
  destruct (Rsign (x / exp App.mu)); eexists; reflexivity.
Qed.

(** ** The failing inputs of [App2.lognorm_cdf] *)

(** C1 (monotonicity of the cumulative operation), evaluated on [App2.py]:
    between the incomes 90000 and 300000, both reachable with the sliders,
    [lognorm_cdf] goes down, from above 1.01 to below 0.996. *)
Theorem C1_App2_lognorm_cdf_decreases :
  90000 < 300000 /\
  flt (App2.lognorm_cdf (Fin 300000) (Fin App2.sigma) App2.scale)
      (App2.lognorm_cdf (Fin 90000) (Fin App2.sigma) App2.scale).
Proof.
  split; [lra|].
  rewrite !App2_lognorm_cdf_finite by lra.
  pose proof App2_cdf_real_90000. pose proof App2_cdf_real_300000.
  cbn [flt]. lra.
Qed.

(** C2 (range probability within [0, 1]), evaluated on [App2.py]: for the
    valid range 90000 <= 300000 the difference of the two cumulative values
    is a negative number, and so is the percentage derived from it. *)
Theorem C2_App2_prob_negative :
  90000 <= 300000 /\
  exists p,
    App2.prob 90000 300000 = Fin p /\ p <= - (0.014) /\
    App2.percent 90000 300000 = Fin (p * 100) /\ p * 100 < 0.
Proof.
  split; [lra|].
  exists (App2.cdf_real 300000 - App2.cdf_real 90000).
  pose proof App2_cdf_real_90000. pose proof App2_cdf_real_300000.
  unfold App2.percent, App2.prob.
  rewrite !App2_lognorm_cdf_finite by lra.
  cbn [fsub fneg fadd fmul lit].
  repeat split; try reflexivity; lra.
Qed.

(** C3 (the scale is the median), evaluated on [App2.py]: at [x = scale]
    [lognorm_cdf] returns [(1 + sqrt (2/pi)) / 2], about 0.899, not 1/2. *)
Theorem C3_App2_lognorm_cdf_at_scale :
  App2.lognorm_cdf App2.scale (Fin App2.sigma) App2.scale
  = Fin ((1 + sqrt (2 / PI)) / 2)
  /\ 0.895 <= (1 + sqrt (2 / PI)) / 2
  /\ (1 + sqrt (2 / PI)) / 2 <> 1 / 2.
Proof.
  pose proof sqrt_two_over_pi_bounds as [Hlo Hhi].
  split; [|split; lra].
  unfold App2.scale at 1. cbn [np_exp].
  rewrite App2_lognorm_cdf_finite by apply exp_pos.
  f_equal. apply App2_cdf_real_median.
Qed.

(** ** The error function of the library model *)

(** An antiderivative that grows no faster than the integrand bounds the
    integral from below. *)
Lemma integral_ge_antiderivative (f H H' : R -> R) (a b : R)
  (pr : Riemann_integrable f a b) :
  a <= b ->
  (forall x, a <= x <= b -> continuity_pt f x) ->
  (forall c, a <= c <= b -> derivable_pt_lim H c (H' c)) ->
  (forall c, a <= c <= b -> H' c <= f c) ->
  H b - H a <= RiemannInt pr.
Proof.
  intros Hab C0 dH Hle.
  destruct Hab as [Hlt | Heq].
  - assert (h : a <= b) by lra.
    rewrite (RiemannInt_P20 h (FTC_P1 h C0) pr).
    set (F := primitive h (FTC_P1 h C0)).
    destruct (MVT_cor2 (fun x => F x - H x) (fun x => f x - H' x) a b Hlt)
      as (c & Hc & Hin).
    + intros c Hc.
      apply derivable_pt_lim_minus;
        [apply RiemannInt_P28; exact Hc | apply dH; exact Hc].
    + assert (0 <= f c - H' c) by (specialize (Hle c); lra). nra.
  - subst b. rewrite RiemannInt_P9. lra.
Qed.

Lemma odd_INR_neq_0 (k : nat) : INR (2 * k + 1) <> 0.
Proof. apply not_0_INR. lia. Qed.

Lemma odd_INR (k : nat) : INR (2 * k + 1) = 2 * INR k + 1.
Proof. rewrite plus_INR, mult_INR. cbn. ring. Qed.

Lemma erf_term_deriv (k : nat) (t : R) :
  derivable_pt_lim
    (fun x => x * expm_term (S k) (x * x) / INR (2 * S k + 1)) t
    (expm_term (S k) (t * t)).
Proof.
  set (c := INR (2 * S k + 1)).
  assert (Hc : c <> 0) by apply odd_INR_neq_0.
  apply derivable_pt_lim_ext
    with (f := mult_real_fct (/ c)
                 (id * comp (expm_term (S k)) (id * id))%F).
  - intros z. unfold mult_real_fct, mult_fct, comp, id. field. exact Hc.
  - replace (expm_term (S k) (t * t))
      with (/ c * (1 * comp (expm_term (S k)) (id * id)%F t
                   + id t * (- expm_term k ((id * id)%F t)
                             * (1 * id t + id t * 1)))).
    + apply derivable_pt_lim_scal, derivable_pt_lim_mult.
      * apply derivable_pt_lim_id.
      * apply derivable_pt_lim_comp.
        -- apply derivable_pt_lim_mult; apply derivable_pt_lim_id.
        -- apply expm_term_deriv.
    + unfold comp, mult_fct, id.
      change (expm_term (S k) (t * t))
        with (expm_term k (t * t) * (- (t * t)) / INR (S k)).
      assert (Hk : INR (S k) <> 0) by apply INR_S_neq_0.
      assert (Hck : c = 2 * INR (S k) + 1) by apply odd_INR.
      rewrite Hck in *. field. split; assumption.
Qed.

Lemma erf_poly_deriv (n : nat) (t : R) :
  derivable_pt_lim (erf_poly n) t (expm_poly n (t * t)).
Proof.
  induction n as [|n IH].
  - apply derivable_pt_lim_ext with (f := id); [reflexivity|].
    apply derivable_pt_lim_id.
  - apply derivable_pt_lim_ext
      with (f := plus_fct (erf_poly n)
                   (fun x => x * expm_term (S n) (x * x)
                             / INR (2 * S n + 1))).
    + intros z. reflexivity.
    + cbn [expm_poly].
      apply derivable_pt_lim_plus; [exact IH | apply erf_term_deriv].
Qed.

Lemma erf_poly_0 (n : nat) : erf_poly n 0 = 0.
Proof.
  induction n as [|n IH]; [reflexivity|].
  cbn [erf_poly]. rewrite IH. unfold Rdiv. ring.
Qed.

Lemma erf_horner_tail (m : nat) (t : R) :
  forall k,
    erf_poly (k + m) t
    = erf_poly k t
      + t * expm_term k (t * t)
        * (erf_horner k m (t * t) - / INR (2 * k + 1)).
Proof.
  induction m as [|m IH]; intros k.
  - rewrite Nat.add_0_r. cbn [erf_horner]. ring.
  - replace (k + S m)%nat with (S k + m)%nat by lia.
    rewrite IH. cbn [erf_poly expm_term erf_horner].
    pose proof (INR_S_neq_0 k). pose proof (odd_INR_neq_0 k).
    pose proof (odd_INR_neq_0 (S k)).
    field. repeat split; assumption.
Qed.

Lemma erf_horner_poly (n : nat) (t : R) :
  t * erf_horner 0 n (t * t) = erf_poly n t.
Proof.
  pose proof (erf_horner_tail n t 0%nat) as H.
  cbn [Nat.add erf_poly expm_term Nat.mul INR] in H.
  rewrite H. rewrite Rinv_1. ring.
Qed.

Lemma erf_hornerQ_correct (m : nat) (u : Q) :
  forall k, Q2R (erf_hornerQ k m u) = erf_horner k m (Q2R u).
Proof.
  assert (Hnz : forall j, ~ (inject_Z (Z.of_nat (S j)) == 0)%Q).
  { intros j H. unfold Qeq, inject_Z in H. cbn [Qnum Qden] in H. lia. }
  assert (Hodd : forall j, ~ (inject_Z (Z.of_nat (2 * j + 1)) == 0)%Q).
  { intros j H. unfold Qeq, inject_Z in H. cbn [Qnum Qden] in H. lia. }
  induction m as [|m IH]; intros k.
  - cbn [erf_hornerQ erf_horner].
    rewrite Q2R_inv, Q2R_inject_nat; [reflexivity | apply Hodd].
  - cbn [erf_hornerQ erf_horner].
    rewrite Q2R_plus, Q2R_mult, Q2R_div, Q2R_opp, Q2R_inv, IH,
      !Q2R_inject_nat; [reflexivity | apply Hodd | apply Hnz].
Qed.

Lemma erf_polyQ_correct (n : nat) (t : Q) :
  Q2R (erf_polyQ n t) = erf_poly n (Q2R t).
Proof.
  unfold erf_polyQ.
  rewrite Q2R_mult, erf_hornerQ_correct, Q2R_mult. apply erf_horner_poly.
Qed.

Lemma erf_0 : Scipy.erf 0 = 0.
Proof. unfold Scipy.erf. rewrite RiemannInt_P9. ring. Qed.

Lemma erf_integral_lower (n : nat) (b : R) :
  Nat.even n = false -> 0 <= b ->
  erf_poly n b <= RiemannInt (Scipy.erf_kernel_integrable 0 b).
Proof.
  intros Hn Hb.
  pose proof (integral_ge_antiderivative Scipy.erf_kernel (erf_poly n)
                (fun t => expm_poly n (t * t)) 0 b
                (Scipy.erf_kernel_integrable 0 b) Hb) as H.
  rewrite erf_poly_0, Rminus_0_r in H. apply H.
  - intros x _. apply Scipy.erf_kernel_continuity.
  - intros c _. apply erf_poly_deriv.
  - intros c _. unfold Scipy.erf_kernel.
    destruct (expm_poly_alternates n (c * c)) as [_ Hodd]; [nra|].
    apply Hodd, Hn.
Qed.

Lemma sqrt_PI_bounds : 0 < sqrt PI <= 1.77246.
Proof.
  pose proof PI_bounds as [Hlo Hhi].
  assert (Hp : 0 < sqrt PI) by (apply sqrt_lt_R0; lra).
  assert (Hs : sqrt PI * sqrt PI = PI) by (apply sqrt_def; lra).
  split; [exact Hp | nra].
Qed.

Lemma erf_diff (x y : R) :
  Scipy.erf y - Scipy.erf x
  = 2 / sqrt PI * RiemannInt (Scipy.erf_kernel_integrable x y).
Proof.
  unfold Scipy.erf.
  rewrite <- (RiemannInt_P26 (Scipy.erf_kernel_integrable 0 x)
                (Scipy.erf_kernel_integrable x y)
                (Scipy.erf_kernel_integrable 0 y)).
  ring.
Qed.

Lemma erf_kernel_integral_pos (x y : R) :
  x < y -> 0 < RiemannInt (Scipy.erf_kernel_integrable x y).
Proof.
  intros Hxy.
  set (M := Rabs x + Rabs y).
  set (m := exp (- (M * M))).
  assert (Hm : 0 < m) by apply exp_pos.
  pose proof (integral_ge_antiderivative Scipy.erf_kernel
                (fun t => m * t) (fun _ => m) x y
                (Scipy.erf_kernel_integrable x y)) as H.
  assert (Hint : m * y - m * x <= RiemannInt (Scipy.erf_kernel_integrable x y)).
  { apply H.
    - lra.
    - intros t _. apply Scipy.erf_kernel_continuity.
    - intros c _.
      apply derivable_pt_lim_ext with (f := mult_real_fct m id);
        [reflexivity|].
      replace m with (m * 1) at 2 by ring.
      apply derivable_pt_lim_scal, derivable_pt_lim_id.
    - intros c [Hc1 Hc2]. unfold Scipy.erf_kernel, m.
      apply exp_mono_le.
      assert (Hx : - Rabs x <= x) by (unfold Rabs; destruct (Rcase_abs x); lra).
      assert (Hy : y <= Rabs y) by apply Rle_abs.
      pose proof (Rabs_pos x). pose proof (Rabs_pos y).
      unfold M. nra. }
  nra.
Qed.

Lemma erf_increasing (x y : R) : x < y -> Scipy.erf x < Scipy.erf y.
Proof.
  intros Hxy.
  pose proof (erf_diff x y) as Hd.
  pose proof (erf_kernel_integral_pos x y Hxy) as Hp.
  pose proof sqrt_PI_bounds as [Hs _].
  assert (0 < 2 / sqrt PI) by (apply Rdiv_lt_0_compat; lra).
  assert (0 < 2 / sqrt PI * RiemannInt (Scipy.erf_kernel_integrable x y))
    by (apply Rmult_lt_0_compat; assumption).
  lra.
Qed.

Lemma erf_mono_le (x y : R) : x <= y -> Scipy.erf x <= Scipy.erf y.
Proof.
  intros [H | ->]; [left; apply erf_increasing; exact H | lra].
Qed.

(** [erf 2.5 = 0.99959...]: the partial sum of order 19 already gives it. *)
Lemma erf_2_5 : 0.999 <= Scipy.erf 2.5.
Proof.
  pose proof sqrt_PI_bounds as [Hs0 Hs1].
  assert (Hq : Q2R (885344 # 1000000) <= erf_poly 19 2.5).
  { replace 2.5 with (Q2R (5 # 2)) by (unfold Q2R; cbn [Qnum Qden]; lra).
    rewrite <- erf_polyQ_correct.
    apply Qle_Rle, Qle_bool_imp_le. vm_compute. reflexivity. }
  assert (Hi : 0.885344 <= RiemannInt (Scipy.erf_kernel_integrable 0 2.5)).
  { apply Rle_trans with (erf_poly 19 2.5).
    - replace 0.885344 with (Q2R (885344 # 1000000))
        by (unfold Q2R; cbn [Qnum Qden]; lra).
      exact Hq.
    - apply erf_integral_lower; [reflexivity | lra]. }
  unfold Scipy.erf.
  set (I := RiemannInt (Scipy.erf_kernel_integrable 0 2.5)) in *.
  apply Rmult_le_reg_r with (sqrt PI); [exact Hs0|].
  replace (2 / sqrt PI * I * sqrt PI) with (2 * I) by (field; lra).
  nra.
Qed.

Lemma ndtr_0 : Scipy.ndtr 0 = 1 / 2.
Proof.
  unfold Scipy.ndtr.
  replace (0 / sqrt 2) with 0 by (unfold Rdiv; ring).
  rewrite erf_0. lra.
Qed.

Lemma ndtr_increasing (x y : R) : x < y -> Scipy.ndtr x < Scipy.ndtr y.
Proof.
  intros Hxy. unfold Scipy.ndtr.
  pose proof sqrt2_pos as Hs.
  assert (Hd : x / sqrt 2 < y / sqrt 2).
  { unfold Rdiv. apply Rmult_lt_compat_r; [apply Rinv_0_lt_compat; exact Hs|].
    exact Hxy. }
  pose proof (erf_increasing _ _ Hd). lra.
Qed.

Lemma ndtr_tail (z : R) : 3.55 <= z -> 0.9995 <= Scipy.ndtr z.
Proof.
  intros Hz. unfold Scipy.ndtr.
  pose proof sqrt2_bounds as [Hs1 Hs2]. pose proof sqrt2_pos as Hs.
  assert (Hd : 2.5 <= z / sqrt 2).
  { apply Rmult_le_reg_r with (sqrt 2); [exact Hs|].
    unfold Rdiv. rewrite Rmult_assoc, Rinv_l by lra. nra. }
  pose proof (erf_mono_le _ _ Hd). pose proof erf_2_5. lra.
Qed.

(** ** Values of the two cumulative functions *)

Lemma ln_over_exp (x m : R) : 0 < x -> ln (x / exp m) = ln x - m.
Proof.
  intros Hx. unfold Rdiv.
  rewrite ln_mult; [|exact Hx|apply Rinv_0_lt_compat, exp_pos].
  rewrite ln_Rinv by apply exp_pos. rewrite ln_exp. ring.
Qed.

Lemma App_lognorm_cdf_pos (x : R) :
  0 < x ->
  Scipy.lognorm_cdf x App.sigma (exp App.mu)
  = Fin (Scipy.ndtr ((ln x - App.mu) / App.sigma)).
Proof.
  intros Hx. unfold Scipy.lognorm_cdf. cbv zeta. rewrite App_argcheck.
  rewrite Rsign_pos by (apply Rdiv_lt_0_compat; [exact Hx | apply exp_pos]).
  rewrite ln_over_exp by exact Hx. reflexivity.
Qed.

Lemma App_lognorm_cdf_zero :
  Scipy.lognorm_cdf 0 App.sigma (exp App.mu) = Fin 0.
Proof.
  unfold Scipy.lognorm_cdf. cbv zeta. rewrite App_argcheck.
  replace (0 / exp App.mu) with 0 by (unfold Rdiv; ring).
  rewrite Rsign_zero. reflexivity.
Qed.

(** With the bounds the wrong way round [app.py] answers with a negative
    number. *)
Lemma App_prob_between_reversed (low high : R) :
  0 < high -> high < low ->
  exists p, App.prob_between low high = Fin p /\ p < 0.
Proof.
  intros Hh Hl. unfold App.prob_between.
  rewrite !App_lognorm_cdf_pos by lra.
  cbn [fsub fneg fadd]. eexists. split; [reflexivity|].
  assert (Hz : (ln high - App.mu) / App.sigma < (ln low - App.mu) / App.sigma).
  { unfold Rdiv. apply Rmult_lt_compat_r.
    - apply Rinv_0_lt_compat, App_sigma_pos.
    - pose proof (ln_increasing high low Hh Hl). lra. }
  pose proof (ndtr_increasing _ _ Hz). lra.
Qed.

Lemma App2_prob_swap (low high : R) :
  0 <= low -> 0 <= high ->
  exists q, App2.prob low high = Fin q /\ App2.prob high low = Fin (- q).
Proof.
  intros Hl Hh. unfold App2.prob.
  destruct (App2_lognorm_cdf_is_finite low Hl) as [a ->].
  destruct (App2_lognorm_cdf_is_finite high Hh) as [b ->].
  cbn [fsub fneg fadd]. exists (b + - a). split; [reflexivity|].
  f_equal. ring.
Qed.

(** ** C4: bounds in the wrong order *)

(** C4, as stated, fails: called with [low = 100000 > high = 40000] the
    range computation of [app.py] does not fail, it returns a negative
    number. *)
Lemma C4_reversed_bounds_return_a_value :
  40000 < 100000 /\
  exists p, App.prob_between 100000 40000 = Fin p /\ p < 0.
Proof.
  split; [lra|]. apply App_prob_between_reversed; lra.
Qed.

(** C4, amended: neither script checks the order of the bounds.  For
    [0 < high < low] [app.py] returns the negative number
    [cumulative(high) - cumulative(low)], the head count derived from it is
    that number times the population, and [App2.py] returns a finite
    number that is the opposite of the result for the bounds in order. *)
Theorem C4_no_order_check (low high : R) :
  0 < high -> high < low ->
  (exists p, App.prob_between low high = Fin p /\ p < 0 /\
             App.num_people low high = Fin (p * 20000000)) /\
  (exists q, App2.prob low high = Fin q /\
             App2.prob high low = Fin (- q) /\
             App2.people low high = Fin (q * 20000000)).
Proof.
  intros Hh Hl. split.
  - destruct (App_prob_between_reversed low high Hh Hl) as (p & Hp & Hneg).
    exists p. unfold App.num_people. rewrite Hp.
    split; [reflexivity|]. split; [exact Hneg | reflexivity].
  - destruct (App2_prob_swap low high) as (q & Hq & Hswap); try lra.
    exists q. unfold App2.people. rewrite Hq.
    split; [reflexivity|]. split; [exact Hswap | reflexivity].
Qed.

Lemma C4_no_order_check_witness :
  (exists p, App.prob_between 100000 40000 = Fin p /\ p < 0 /\
             App.num_people 100000 40000 = Fin (p * 20000000)) /\
  (exists q, App2.prob 100000 40000 = Fin q /\
             App2.prob 40000 100000 = Fin (- q) /\
             App2.people 100000 40000 = Fin (q * 20000000)).
Proof.
  apply (C4_no_order_check 100000 40000); lra.
Defined.

(** ** C5: the density *)

Lemma sqrt_two_pi_pos : 0 < sqrt (2 * PI).
Proof. apply sqrt_lt_R0. pose proof PI_RGT_0. lra. Qed.

Lemma Spec_density_pos (x : R) : 0 < x -> 0 < Spec.density x.
Proof.
  intros Hx. unfold Spec.density, Spec.shapeParameter.
  apply Rmult_lt_0_compat; [|apply exp_pos].
  apply Rdiv_lt_0_compat; [lra|].
  pose proof sqrt_two_pi_pos.
  apply Rmult_lt_0_compat; [apply Rmult_lt_0_compat|]; lra.
Qed.

Lemma App2_lognorm_pdf_finite (x : R) :
  0 < x ->
  App2.lognorm_pdf (Fin x) (Fin App2.sigma) App2.scale = Fin (Spec.density x).
Proof.
  intros Hx. pose proof PI_RGT_0 as Hpi. pose proof sigma_pos as Hs.
  unfold App2.lognorm_pdf, App2.scale.
  fin_eval. reflexivity.
Qed.

Lemma App_lognorm_pdf_pos (x : R) :
  0 < x ->
  Scipy.lognorm_pdf x App.sigma (exp App.mu) = Fin (Spec.density x).
Proof.
  intros Hx. unfold Scipy.lognorm_pdf. cbv zeta. rewrite App_argcheck.
  assert (Hy : 0 < x / exp App.mu)
    by (apply Rdiv_lt_0_compat; [exact Hx | apply exp_pos]).
  rewrite (Rsign_pos _ Hy). f_equal.
  pose proof sqrt_two_pi_pos as Hr. pose proof App_sigma_pos as Hs.
  pose proof (exp_pos App.mu) as He.
  assert (Hb : 0 < App.sigma * (x / exp App.mu) * sqrt (2 * PI))
    by (apply Rmult_lt_0_compat; [apply Rmult_lt_0_compat|]; assumption).
  unfold Rminus at 1. rewrite exp_plus, exp_Ropp, (exp_ln _ Hb).
  rewrite ln_over_exp by exact Hx.
  unfold Spec.density, Spec.scale, Spec.shapeParameter.
  rewrite ln_exp. fold App.mu. fold App.sigma.
  field. repeat split; lra.
Qed.

(** C5: for every [x > 0] the density of either script is the log-normal
    density [1 / (x sigma sqrt(2 pi)) * exp(-(ln x - ln scale)^2 / (2
    sigma^2))] with [sigma = 0.95] and [scale = exp 10.45], and it is not
    negative. *)
Theorem C5_density_is_lognormal (x : R) :
  0 < x ->
  App2.lognorm_pdf (Fin x) (Fin App2.sigma) App2.scale = Fin (Spec.density x)
  /\ Scipy.lognorm_pdf x App.sigma (exp App.mu) = Fin (Spec.density x)
  /\ 0 <= Spec.density x.
Proof.
  intros Hx. split; [|split].
  - apply App2_lognorm_pdf_finite, Hx.
  - apply App_lognorm_pdf_pos, Hx.
  - left. apply Spec_density_pos, Hx.
Qed.

Lemma C5_density_is_lognormal_witness :
  App2.lognorm_pdf (Fin 50000) (Fin App2.sigma) App2.scale
  = Fin (Spec.density 50000)
  /\ Scipy.lognorm_pdf 50000 App.sigma (exp App.mu)
     = Fin (Spec.density 50000)
  /\ 0 <= Spec.density 50000.
Proof.
  apply (C5_density_is_lognormal 50000). lra.
Defined.

(** ** C6: the display grids *)

Lemma set_last_In (stop : R) (l : list R) (x : R) :
  In x (NumPy.set_last stop l) -> x = stop \/ In x l.
Proof.
  induction l as [|a [|b tl] IH]; cbn [NumPy.set_last]; intros H.
  - destruct H.
  - destruct H as [<- | []]. left. reflexivity.
  - destruct H as [<- | H]; [right; left; reflexivity|].
    destruct (IH H) as [-> | Hin]; [left; reflexivity | right; right; exact Hin].
Qed.

Lemma set_last_length (stop : R) (l : list R) :
  length (NumPy.set_last stop l) = length l.
Proof.
  induction l as [|a [|b tl] IH]; cbn [NumPy.set_last length] in *;
    [reflexivity | reflexivity | rewrite IH; reflexivity].
Qed.

Lemma linspace_length (start stop : R) (num : nat) :
  length (NumPy.linspace start stop num) = num.
Proof.
  unfold NumPy.linspace. cbv zeta.
  destruct num as [|[|n]];
    rewrite ?set_last_length, length_map, length_seq; reflexivity.
Qed.

(** From the second sample on, a grid of at least two points. *)
Lemma linspace_cons (start stop : R) (n : nat) :
  NumPy.linspace start stop (S (S n))
  = (INR 0 * ((stop - start) / INR (S n)) + start)
      :: NumPy.set_last stop
           (map (fun i => INR i * ((stop - start) / INR (S n)) + start)
                (seq 1 (S n))).
Proof.
  unfold NumPy.linspace. cbv zeta.
  replace (S (S n) - 1)%nat with (S n) by lia.
  change (seq 0 (S (S n))) with (0%nat :: 1%nat :: seq 2 n).
  change (seq 1 (S n)) with (1%nat :: seq 2 n).
  reflexivity.
Qed.

Lemma linspace_tail_pos (start stop : R) (n : nat) :
  0 <= start -> start < stop ->
  Forall (fun x => 0 < x) (tl (NumPy.linspace start stop (S (S n)))).
Proof.
  intros Hs Hlt. rewrite linspace_cons. cbn [tl].
  apply Forall_forall. intros x Hx.
  apply set_last_In in Hx. destruct Hx as [-> | Hx]; [lra|].
  apply in_map_iff in Hx. destruct Hx as (i & <- & Hi).
  apply in_seq in Hi.
  assert (Hn : 0 < INR (S n)) by (apply lt_0_INR; lia).
  assert (Hstep : 0 < (stop - start) / INR (S n))
    by (apply Rdiv_lt_0_compat; lra).
  assert (Hi1 : 1 <= INR i).
  { replace 1 with (INR 1) by reflexivity. apply le_INR. lia. }
  nra.
Qed.

Lemma linspace_pos (start stop : R) (n : nat) :
  0 < start -> start < stop ->
  Forall (fun x => 0 < x) (NumPy.linspace start stop (S (S n))).
Proof.
  intros Hs Hlt.
  pose proof (linspace_tail_pos start stop n (Rlt_le _ _ Hs) Hlt) as Ht.
  rewrite linspace_cons in *. cbn [tl] in Ht.
  constructor; [|exact Ht].
  cbn [INR]. lra.
Qed.

Lemma App_income_range_head : hd_error App.income_range = Some 0.
Proof.
  unfold App.income_range.
  change 1000%nat with (S (S 998)). rewrite linspace_cons.
  cbn [hd_error INR]. f_equal. lra.
Qed.

Lemma App_lognorm_pdf_zero :
  Scipy.lognorm_pdf 0 App.sigma (exp App.mu) = Fin 0.
Proof.
  unfold Scipy.lognorm_pdf. cbv zeta. rewrite App_argcheck.
  replace (0 / exp App.mu) with 0 by (unfold Rdiv; ring).
  rewrite Rsign_zero. reflexivity.
Qed.

Lemma hd_error_map {A B : Type} (f : A -> B) (l : list A) (a : A) :
  hd_error l = Some a -> hd_error (map f l) = Some (f a).
Proof.
  destruct l as [|x tl]; cbn; intros H; [discriminate|].
  injection H as ->. reflexivity.
Qed.

(** C6, as stated, fails on [app.py]: the first sample of its grid is 0,
    the grid goes to the density unchanged, and the first density value is
    the library density evaluated at 0. *)
Lemma C6_app_grid_starts_at_zero :
  hd_error App.income_range = Some 0
  /\ hd_error App.pdf_values
     = Some (Scipy.lognorm_pdf 0 App.sigma (exp App.mu))
  /\ ~ Forall (fun x => 0 < x) App.income_range.
Proof.
  pose proof App_income_range_head as Hh.
  split; [exact Hh|]. split.
  - unfold App.pdf_values.
    apply (hd_error_map (fun x => Scipy.lognorm_pdf x App.sigma (exp App.mu))).
    exact Hh.
  - intros Hall. destruct App.income_range as [|x tl]; [discriminate|].
    cbn in Hh. injection Hh as ->. inversion Hall. lra.
Qed.

(** C6, amended: the grid of [App2.py] has 1000 strictly positive samples;
    the grid of [app.py] has 1000 samples of which the first is 0 and all
    later ones are strictly positive; [app.py] passes that grid to the
    library density without skipping or clamping, and the library answers 0
    at the zero sample. *)
Theorem C6_display_grids :
  Forall (fun x => 0 < x) App2.income_range
  /\ length App2.income_range = 1000%nat
  /\ length App.income_range = 1000%nat
  /\ hd_error App.income_range = Some 0
  /\ Forall (fun x => 0 < x) (tl App.income_range)
  /\ length App.pdf_values = length App.income_range
  /\ hd_error App.pdf_values = Some (Fin 0).
Proof.
  split; [|split; [|split; [|split; [|split; [|split]]]]].
  - unfold App2.income_range. change 1000%nat with (S (S 998)).
    apply linspace_pos; lra.
  - apply linspace_length.
  - apply linspace_length.
  - exact App_income_range_head.
  - unfold App.income_range. change 1000%nat with (S (S 998)).
    apply linspace_tail_pos; lra.
  - unfold App.pdf_values. apply length_map.
  - rewrite <- App_lognorm_pdf_zero. unfold App.pdf_values.
    apply (hd_error_map (fun x => Scipy.lognorm_pdf x App.sigma (exp App.mu))).
    exact App_income_range_head.
Qed.

(** ** The far tail of both cumulative functions

    Bounds used for C7, which is stated at the end of the file, once the
    limits of both functions are available. *)

(** Five standard deviations out and beyond, the hand-written formula is
    within a thousandth below 1 or above it. *)
Lemma cdf_shape_far (z : R) :
  5 <= z ->
  0.999 < 0.5 * (1 + tanh (sqrt 2 * z / 2)
                 + sqrt (2 / PI) * exp (- (z * z) / 2)).
Proof.
  intros Hz.
  pose proof sqrt2_bounds as [Hs1 Hs2].
  pose proof sqrt_two_over_pi_bounds as [Hr1 Hr2].
  rewrite tanh_exp_neg.
  set (t := exp (- (2 * (sqrt 2 * z / 2)))).
  set (g := exp (- (z * z) / 2)).
  assert (Ht0 : 0 < t) by apply exp_pos.
  assert (Hg0 : 0 < g) by apply exp_pos.
  assert (Ht : t <= 0.0009).
  { apply Rle_trans with (exp (- (7.05))).
    - apply exp_mono_le. nra.
    - exp_above 26%nat (9 # 10000)%Q (705 # 100)%Q. }
  assert (Hd : 0.9982 <= (1 - t) / (1 + t)).
  { apply Rmult_le_reg_r with (1 + t); [lra|].
    unfold Rdiv. rewrite Rmult_assoc, Rinv_l; lra. }
  assert (Hrg : 0 < sqrt (2 / PI) * g) by (apply Rmult_lt_0_compat; lra).
  lra.
Qed.

Lemma ln_10_nonneg : 0 <= ln 10.
Proof. rewrite <- ln_1. apply ln_mono_le; lra. Qed.

(** The standardised value of an income at or beyond
    [10 * exp mu * exp (5 sigma)] is at least 5. *)
Lemma far_income_z (m s x : R) :
  0 < s -> 10 * exp m * exp (5 * s) <= x -> 5 <= (ln x - m) / s.
Proof.
  intros Hs Hx.
  pose proof (exp_pos m) as Hm. pose proof (exp_pos (5 * s)) as H5.
  assert (H0 : 0 < 10 * exp m * exp (5 * s))
    by (apply Rmult_lt_0_compat; [apply Rmult_lt_0_compat|]; lra).
  assert (Hln : ln (10 * exp m * exp (5 * s)) = ln 10 + m + 5 * s).
  { rewrite ln_mult; [|apply Rmult_lt_0_compat; lra|exact H5].
    rewrite ln_mult; [|lra|exact Hm]. rewrite !ln_exp. reflexivity. }
  pose proof (ln_mono_le _ _ H0 Hx) as Hle. rewrite Hln in Hle.
  pose proof ln_10_nonneg.
  apply Rmult_le_reg_r with s; [exact Hs|].
  unfold Rdiv. rewrite Rmult_assoc, Rinv_l; lra.
Qed.

(** ** C8 and C9: range probabilities and head counts *)

(** C8: over exact arithmetic the range probabilities of adjacent
    intervals add up, in both scripts, for all [0 <= a <= b <= c]. *)
Theorem C8_range_probability_additive (a b c : R) :
  0 <= a -> a <= b -> b <= c ->
  feq (App2.prob a b + App2.prob b c)%fl (App2.prob a c)
  /\ feq (App.prob_between a b + App.prob_between b c)%fl
         (App.prob_between a c).
Proof.
  intros Ha Hab Hbc. split.
  - unfold App2.prob.
    destruct (App2_lognorm_cdf_is_finite a) as [ra ->]; [lra|].
    destruct (App2_lognorm_cdf_is_finite b) as [rb ->]; [lra|].
    destruct (App2_lognorm_cdf_is_finite c) as [rc ->]; [lra|].
    cbn [fsub fneg fadd feq]. ring.
  - unfold App.prob_between.
    destruct (App_lognorm_cdf_is_finite a) as [ra ->].
    destruct (App_lognorm_cdf_is_finite b) as [rb ->].
    destruct (App_lognorm_cdf_is_finite c) as [rc ->].
    cbn [fsub fneg fadd feq]. ring.
Qed.

Lemma C8_range_probability_additive_witness :
  feq (App2.prob 0 40000 + App2.prob 40000 100000)%fl (App2.prob 0 100000)
  /\ feq (App.prob_between 0 40000 + App.prob_between 40000 100000)%fl
         (App.prob_between 0 100000).
Proof.
  apply (C8_range_probability_additive 0 40000 100000); lra.
Defined.

(** C9: for every valid range the head count is the range probability
    times the population constant 20,000,000, in both scripts. *)
Theorem C9_people_in_range (low high : R) :
  0 <= low -> low <= high ->
  (exists p, App.prob_between low high = Fin p
             /\ App.num_people low high = Fin (p * IZR Spec.totalPopulation))
  /\ (exists q, App2.prob low high = Fin q
                /\ App2.people low high = Fin (q * IZR Spec.totalPopulation))
  /\ App.total_population = 20000000%Z
  /\ App2.total_pop = 20000000%Z.
Proof.
  intros Hl Hlh. split; [|split; [|split; reflexivity]].
  - unfold App.num_people, App.prob_between.
    destruct (App_lognorm_cdf_is_finite low) as [rl ->].
    destruct (App_lognorm_cdf_is_finite high) as [rh ->].
    cbn [fsub fneg fadd fmul lit]. eexists. split; reflexivity.
  - unfold App2.people, App2.prob.
    destruct (App2_lognorm_cdf_is_finite low) as [rl ->]; [lra|].
    destruct (App2_lognorm_cdf_is_finite high) as [rh ->]; [lra|].
    cbn [fsub fneg fadd fmul lit]. eexists. split; reflexivity.
Qed.

Lemma C9_people_in_range_witness :
  (exists p, App.prob_between 40000 100000 = Fin p
             /\ App.num_people 40000 100000
                = Fin (p * IZR Spec.totalPopulation))
  /\ (exists q, App2.prob 40000 100000 = Fin q
                /\ App2.people 40000 100000
                   = Fin (q * IZR Spec.totalPopulation))
  /\ App.total_population = 20000000%Z
  /\ App2.total_pop = 20000000%Z.
Proof.
  apply (C9_people_in_range 40000 100000); lra.
Defined.

(** ** The library path of [app.py] on the same questions *)

(** On positive incomes the cumulative function of [app.py] is strictly
    increasing. *)
Theorem App_cumulative_increasing (x1 x2 : R) :
  0 < x1 -> x1 < x2 ->
  flt (Scipy.lognorm_cdf x1 App.sigma (exp App.mu))
      (Scipy.lognorm_cdf x2 App.sigma (exp App.mu)).
Proof.
  intros H1 H12.
  rewrite !App_lognorm_cdf_pos by lra. cbn [flt].
  apply ndtr_increasing.
  unfold Rdiv. apply Rmult_lt_compat_r.
  - apply Rinv_0_lt_compat, App_sigma_pos.
  - pose proof (ln_increasing x1 x2 H1 H12). lra.
Qed.

Lemma App_cumulative_increasing_witness :
  flt (Scipy.lognorm_cdf 90000 App.sigma (exp App.mu))
      (Scipy.lognorm_cdf 300000 App.sigma (exp App.mu)).
Proof.
  apply (App_cumulative_increasing 90000 300000); lra.
Defined.

(** At [x = scale] the cumulative function of [app.py] is one half. *)
Theorem App_cumulative_at_scale :
  Scipy.lognorm_cdf (exp App.mu) App.sigma (exp App.mu) = Fin (1 / 2).
Proof.
  rewrite App_lognorm_cdf_pos by apply exp_pos.
  rewrite ln_exp.
  replace ((App.mu - App.mu) / App.sigma) with 0 by (unfold Rdiv; ring).
  rewrite ndtr_0. reflexivity.
Qed.

(** ** The chart traces *)

Lemma fold_fmax2_Fin (rs : list R) :
  forall m, fold_left NumPy.fmax2 (map Fin rs) (Fin m)
            = Fin (fold_left Rmax rs m).
Proof.
  induction rs as [|r rs IH]; intros m; [reflexivity|].
  cbn [map fold_left NumPy.fmax2]. apply IH.
Qed.

Lemma fold_Rmax_ge_init (rs : list R) :
  forall m, m <= fold_left Rmax rs m.
Proof.
  induction rs as [|r rs IH]; intros m; cbn [fold_left]; [lra|].
  apply Rle_trans with (Rmax m r); [apply Rmax_l | apply IH].
Qed.

Lemma fold_Rmax_ge (rs : list R) :
  forall m r, In r rs -> r <= fold_left Rmax rs m.
Proof.
  induction rs as [|a rs IH]; intros m r Hin; [destruct Hin|].
  cbn [fold_left]. destruct Hin as [-> | Hin].
  - apply Rle_trans with (Rmax m r); [apply Rmax_r | apply fold_Rmax_ge_init].
  - apply IH, Hin.
Qed.

Lemma fold_Rmax_in (rs : list R) :
  forall m, fold_left Rmax rs m = m \/ In (fold_left Rmax rs m) rs.
Proof.
  induction rs as [|a rs IH]; intros m; [left; reflexivity|].
  cbn [fold_left]. destruct (IH (Rmax m a)) as [H | H].
  - rewrite H. unfold Rmax. destruct (Rle_dec m a).
    + right. left. reflexivity.
    + left. reflexivity.
  - right. right. exact H.
Qed.

(** Dividing a non-negative finite series with a positive entry by its
    maximum and scaling by [top] gives finite values between 0 and [top],
    with [top] attained. *)
Lemma peak_normalised (rs : list R) (top : Z) :
  (0 < top)%Z ->
  (forall r, In r rs -> 0 <= r) ->
  (exists r, In r rs /\ 0 < r) ->
  exists M,
    NumPy.np_max (map Fin rs) = Some (Fin M)
    /\ 0 < M /\ In M rs
    /\ map (fun v => (v / Fin M * lit top)%fl) (map Fin rs)
       = map (fun r => Fin (r / M * IZR top)) rs
    /\ (forall r, In r rs -> 0 <= r / M * IZR top <= IZR top)
    /\ In (Fin (IZR top)) (map (fun r => Fin (r / M * IZR top)) rs).
Proof.
  intros Htop Hnn (r0 & Hr0 & Hpos).
  destruct rs as [|a rs]; [destruct Hr0|].
  set (M := fold_left Rmax rs a).
  assert (Hge : forall r, In r (a :: rs) -> r <= M).
  { intros r [<- | Hin]; [apply fold_Rmax_ge_init | apply fold_Rmax_ge, Hin]. }
  assert (HM : 0 < M) by (specialize (Hge r0 Hr0); lra).
  assert (Hin : In M (a :: rs)).
  { destruct (fold_Rmax_in rs a) as [H | H]; [left; symmetry; exact H|].
    right. exact H. }
  assert (Ht : 0 < IZR top) by (apply IZR_lt; exact Htop).
  exists M. split; [|split; [exact HM|split; [exact Hin|split; [|split]]]].
  - cbn [map NumPy.np_max]. f_equal. apply fold_fmax2_Fin.
  - rewrite map_map. apply map_ext. intros r.
    cbn [fdiv]. rewrite (Rsign_pos M HM). reflexivity.
  - intros r Hr. specialize (Hge r Hr). specialize (Hnn r Hr).
    assert (0 <= r / M <= 1).
    { split.
      - apply Rmult_le_pos; [exact Hnn | left; apply Rinv_0_lt_compat, HM].
      - apply Rmult_le_reg_r with M; [exact HM|].
        unfold Rdiv. rewrite Rmult_assoc, Rinv_l; lra. }
    nra.
  - apply in_map_iff. exists M. split; [|exact Hin].
    f_equal. field. lra.
Qed.

Lemma App2_pdf_values :
  App2.pdf = map Fin (map Spec.density App2.income_range).
Proof.
  unfold App2.pdf. rewrite map_map. apply map_ext_in.
  intros x Hx. apply App2_lognorm_pdf_finite.
  assert (Hall : Forall (fun x => 0 < x) App2.income_range).
  { unfold App2.income_range. change 1000%nat with (S (S 998)).
    apply linspace_pos; lra. }
  rewrite Forall_forall in Hall. apply Hall, Hx.
Qed.

Lemma set_last_In_stop (stop : R) (l : list R) :
  l <> [] -> In stop (NumPy.set_last stop l).
Proof.
  induction l as [|a [|b tl] IH]; intros Hne; [contradiction| |].
  - left. reflexivity.
  - cbn [NumPy.set_last]. right. apply IH. discriminate.
Qed.

Lemma linspace_In_stop (start stop : R) (n : nat) :
  In stop (NumPy.linspace start stop (S (S n))).
Proof.
  rewrite linspace_cons. right. apply set_last_In_stop. discriminate.
Qed.

(** The density [app.py] gets from the library, as a real number. *)
Definition App_density_value (x : R) : R :=
  if Rlt_dec 0 x then Spec.density x else 0.

Lemma App_lognorm_pdf_value (x : R) :
  Scipy.lognorm_pdf x App.sigma (exp App.mu) = Fin (App_density_value x).
Proof.
  unfold App_density_value.
  destruct (Rlt_dec 0 x) as [Hx | Hx].
  - apply App_lognorm_pdf_pos, Hx.
  - destruct (Req_dec x 0) as [-> | Hne]; [apply App_lognorm_pdf_zero|].
    unfold Scipy.lognorm_pdf. cbv zeta. rewrite App_argcheck.
    rewrite Rsign_neg; [reflexivity|].
    pose proof (exp_pos App.mu) as He.
    assert (Hneg : x < 0) by lra.
    unfold Rdiv. pose proof (Rinv_0_lt_compat _ He). nra.
Qed.



(** The density trace of [App2.py], [pdf / np.max(pdf) * 30]: the maximum
    exists and is positive, so every one of the 1000 values is a finite
    number in (0, 30], and the peak value 30 is attained. *)
Theorem App2_density_scaled_range :
  exists l,
    App2.density_scaled = Some l
    /\ length l = 1000%nat
    /\ (forall v, In v l -> exists r, v = Fin r /\ 0 < r <= 30)
    /\ In (Fin 30) l.
Proof.
  assert (Hall : Forall (fun x => 0 < x) App2.income_range).
  { unfold App2.income_range. change 1000%nat with (S (S 998)).
    apply linspace_pos; lra. }
  rewrite Forall_forall in Hall.
  assert (Hlen : length App2.income_range = 1000%nat) by apply linspace_length.
  destruct (peak_normalised (map Spec.density App2.income_range) 30)
    as (M & Hmax & HM & HinM & Hmap & Hrange & Htop).
  - lia.
  - intros r Hr. apply in_map_iff in Hr. destruct Hr as (x & <- & Hx).
    left. apply Spec_density_pos, Hall, Hx.
  - exists (Spec.density 300000). split.
    + apply in_map. unfold App2.income_range.
      change 1000%nat with (S (S 998)). apply linspace_In_stop.
    + apply Spec_density_pos. lra.
  - unfold App2.density_scaled. rewrite App2_pdf_values, Hmax, Hmap.
    eexists. split; [reflexivity|]. split; [|split].
    + rewrite !length_map. exact Hlen.
    + intros v Hv. apply in_map_iff in Hv. destruct Hv as (r & <- & Hr).
      eexists. split; [reflexivity|].
      pose proof (Hrange r Hr) as [_ Hhi]. split; [|exact Hhi].
      apply in_map_iff in Hr. destruct Hr as (x & <- & Hx).
      pose proof (Spec_density_pos x (Hall x Hx)) as Hd.
      apply Rmult_lt_0_compat; [|lra].
      apply Rdiv_lt_0_compat; assumption.
    + exact Htop.
Qed.


(** ** Incomes at or below zero *)

Lemma App2_lognorm_pdf_nonpos (x : R) :
  x <= 0 -> App2.lognorm_pdf (Fin x) (Fin App2.sigma) App2.scale = NaN.
Proof.
  intros [Hx | ->].
  - unfold App2.lognorm_pdf. cbn [np_log]. rewrite (Rsign_neg x Hx).
    destruct (lit 1 / (Fin x * Fin App2.sigma * np_sqrt (lit 2 * np_pi)))%fl;
      reflexivity.
  - unfold App2.lognorm_pdf, App2.scale.
    cbn [np_exp np_log]. rewrite Rsign_zero, (Rsign_pos _ (exp_pos App2.mu)).
    pose proof PI_RGT_0 as Hpi. pose proof sigma_pos as Hs.
    fin_eval.
    replace (0 * App2.sigma * sqrt (2 * PI)) with 0 by ring.
    rewrite Rsign_zero. fin_eval. rewrite Rsign_zero. reflexivity.
Qed.

Lemma App2_lognorm_cdf_neg (x : R) :
  x < 0 -> App2.lognorm_cdf (Fin x) (Fin App2.sigma) App2.scale = NaN.
Proof.
  intros Hx. unfold App2.lognorm_cdf. cbn [np_log].
  rewrite (Rsign_neg x Hx).
  cbn [fsub fadd fdiv fsquare fmul fneg np_exp np_sqrt lit].
  rewrite (Rsign_pos 2) by lra. reflexivity.
Qed.

Lemma fadd_NaN_r (a : float64) : (a + NaN)%fl = NaN.
Proof. destruct a; reflexivity. Qed.

Lemma fmul_NaN_l (a : float64) : (NaN * a)%fl = NaN.
Proof. reflexivity. Qed.

(** In [App2.py] a non-positive income is not rejected: the density is
    [nan] for every [x <= 0], the cumulative function is [nan] for every
    [x < 0], and a range query with a negative bound answers [nan] for the
    probability, the head count and the percentage alike. *)
Theorem App2_nonpositive_income_is_nan :
  (forall x, x <= 0 ->
     App2.lognorm_pdf (Fin x) (Fin App2.sigma) App2.scale = NaN)
  /\ (forall x, x < 0 ->
        App2.lognorm_cdf (Fin x) (Fin App2.sigma) App2.scale = NaN)
  /\ (forall low high, low < 0 \/ high < 0 ->
        App2.prob low high = NaN
        /\ App2.people low high = NaN
        /\ App2.percent low high = NaN).
Proof.
  split; [exact App2_lognorm_pdf_nonpos|]. split; [exact App2_lognorm_cdf_neg|].
  intros low high H.
  assert (Hp : App2.prob low high = NaN).
  { unfold App2.prob, fsub. destruct H as [H | H].
    - rewrite (App2_lognorm_cdf_neg low H). cbn [fneg]. apply fadd_NaN_r.
    - rewrite (App2_lognorm_cdf_neg high H). reflexivity. }
  unfold App2.people, App2.percent. rewrite Hp. repeat split.
Qed.

Lemma App_lognorm_cdf_nonpos (x : R) :
  x <= 0 -> Scipy.lognorm_cdf x App.sigma (exp App.mu) = Fin 0.
Proof.
  intros [Hx | ->]; [|apply App_lognorm_cdf_zero].
  unfold Scipy.lognorm_cdf. cbv zeta. rewrite App_argcheck.
  rewrite Rsign_neg; [reflexivity|].
  pose proof (Rinv_0_lt_compat _ (exp_pos App.mu)). unfold Rdiv. nra.
Qed.

(** In [app.py] a non-positive bound counts as the bound 0: the range
    probability, the head count and the percentage are those of the range
    that starts at 0. *)
Theorem App_nonpositive_bound_counts_as_zero (low high : R) :
  low <= 0 ->
  App.prob_between low high = App.prob_between 0 high
  /\ App.num_people low high = App.num_people 0 high
  /\ App.percentage low high = App.percentage 0 high.
Proof.
  intros Hl.
  assert (Hp : App.prob_between low high = App.prob_between 0 high).
  { unfold App.prob_between.
    rewrite (App_lognorm_cdf_nonpos low Hl), App_lognorm_cdf_zero.
    reflexivity. }
  unfold App.num_people, App.percentage. rewrite Hp. repeat split.
Qed.

Lemma App_nonpositive_bound_counts_as_zero_witness :
  App.prob_between (-5000) 100000 = App.prob_between 0 100000
  /\ App.num_people (-5000) 100000 = App.num_people 0 100000
  /\ App.percentage (-5000) 100000 = App.percentage 0 100000.
Proof.
  apply (App_nonpositive_bound_counts_as_zero (-5000) 100000). lra.
Defined.

(** ** The display grids in order *)

Lemma set_last_nth (stop : R) (l : list R) (i : nat) :
  (S i < length l)%nat -> nth i (NumPy.set_last stop l) 0 = nth i l 0.
Proof.
  revert i. induction l as [|a [|b tl] IH]; intros i Hi.
  - cbn in Hi. lia.
  - cbn in Hi. lia.
  - cbn [NumPy.set_last]. destruct i as [|i]; [reflexivity|].
    cbn [nth]. apply IH. cbn [length] in *. lia.
Qed.

Lemma set_last_nth_last (stop : R) (l : list R) :
  l <> [] -> nth (length l - 1) (NumPy.set_last stop l) 0 = stop.
Proof.
  induction l as [|a [|b tl] IH]; intros Hne; [contradiction|reflexivity|].
  cbn [NumPy.set_last].
  replace (length (a :: b :: tl) - 1)%nat with (S (length (b :: tl) - 1))
    by (cbn [length]; lia).
  cbn [nth]. apply IH. discriminate.
Qed.

(** Every sample of a grid of at least two points sits at its place on the
    line from [start] to [stop]. *)
Lemma linspace_nth (start stop : R) (n i : nat) :
  (i < S (S n))%nat ->
  nth i (NumPy.linspace start stop (S (S n))) 0
  = start + INR i * ((stop - start) / INR (S n)).
Proof.
  intros Hi.
  set (f := fun k => INR k * ((stop - start) / INR (S n)) + start).
  assert (Hf : nth i (map f (seq 0 (S (S n)))) 0 = f i).
  { rewrite (nth_indep _ 0 (f 0%nat)) by (rewrite length_map, length_seq; lia).
    rewrite map_nth, seq_nth by lia. reflexivity. }
  assert (Hlin : NumPy.linspace start stop (S (S n))
                 = NumPy.set_last stop (map f (seq 0 (S (S n))))).
  { unfold NumPy.linspace. cbv zeta.
    replace (S (S n) - 1)%nat with (S n) by lia. reflexivity. }
  rewrite Hlin.
  destruct (Nat.eq_dec i (S n)) as [-> | Hne].
  - replace (S n) with (length (map f (seq 0 (S (S n)))) - 1)%nat at 1
      by (rewrite length_map, length_seq; lia).
    rewrite set_last_nth_last
      by (change (seq 0 (S (S n))) with (0%nat :: seq 1 (S n)); discriminate).
    assert (INR (S n) <> 0) by apply INR_S_neq_0. field. assumption.
  - rewrite set_last_nth by (rewrite length_map, length_seq; lia).
    rewrite Hf. unfold f. ring.
Qed.

Lemma INR_999 : INR 999 = 999.
Proof. rewrite INR_IZR_INZ. reflexivity. Qed.

Lemma App_income_range_nth (i : nat) :
  (i < 1000)%nat -> nth i App.income_range 0 = INR i * (300000 / 999).
Proof.
  intros Hi. unfold App.income_range. change 1000%nat with (S (S 998)).
  rewrite linspace_nth by exact Hi.
  change (S 998) with 999%nat. rewrite INR_999. lra.
Qed.

Lemma App2_income_range_nth (i : nat) :
  (i < 1000)%nat -> nth i App2.income_range 0 = 1 + INR i * (299999 / 999).
Proof.
  intros Hi. unfold App2.income_range. change 1000%nat with (S (S 998)).
  rewrite linspace_nth by exact Hi.
  change (S 998) with 999%nat. rewrite INR_999. lra.
Qed.


Lemma App2_income_range_length : length App2.income_range = 1000%nat.
Proof. apply linspace_length. Qed.

(** Both display grids run from their first value to 300000 in 999 equal
    steps, strictly increasing: the grid of [app.py] from 0, that of
    [App2.py] from 1. *)
Theorem income_ranges_evenly_increasing :
  (forall i, (i < 1000)%nat ->
     nth i App.income_range 0 = INR i * (300000 / 999))
  /\ (forall i, (i < 1000)%nat ->
        nth i App2.income_range 0 = 1 + INR i * (299999 / 999))
  /\ (forall i j, (i < j)%nat -> (j < 1000)%nat ->
        nth i App.income_range 0 < nth j App.income_range 0
        /\ nth i App2.income_range 0 < nth j App2.income_range 0)
  /\ nth 999 App.income_range 0 = 300000
  /\ nth 999 App2.income_range 0 = 300000.
Proof.
  split; [exact App_income_range_nth|].
  split; [exact App2_income_range_nth|]. split; [|split].
  - intros i j Hij Hj.
    rewrite !App_income_range_nth, !App2_income_range_nth by lia.
    assert (Hlt : INR i < INR j) by (apply lt_INR; exact Hij).
    split; lra.
  - rewrite App_income_range_nth by lia. rewrite INR_999. lra.
  - rewrite App2_income_range_nth by lia. rewrite INR_999. lra.
Qed.

(** ** The cumulative trace of [App2.py] *)

Lemma App2_cdf_percent_nth (i : nat) :
  (i < 1000)%nat ->
  nth i App2.cdf_percent NaN
  = Fin (App2.cdf_real (1 + INR i * (299999 / 999)) * 100).
Proof.
  intros Hi.
  unfold App2.cdf_percent, App2.cdf. rewrite map_map.
  set (k := fun x =>
    (App2.lognorm_cdf (Fin x) (Fin App2.sigma) App2.scale * lit 100)%fl).
  rewrite (nth_indep _ NaN (k 0))
    by (rewrite length_map, App2_income_range_length; exact Hi).
  rewrite map_nth, (App2_income_range_nth i Hi). unfold k.
  rewrite App2_lognorm_cdf_finite; [reflexivity|].
  assert (0 <= INR i) by apply pos_INR. nra.
Qed.

Lemma App2_cdf_real_above_one (x : R) :
  90000 <= x <= 90100 -> 1.01 <= App2.cdf_real x.
Proof.
  intros [Hlo Hhi]. unfold App2.cdf_real. cbv zeta.
  apply cdf_shape_above_one.
  pose proof ln_90000_bounds as [H1 _].
  assert (H2 : ln 90100 <= 11.4475).
  { apply ln_le_of_exp_neg; [lra|].
    exp_above 42%nat (1 # 90100)%Q (114475 # 10000)%Q. }
  assert (Hl : ln 90000 <= ln x) by (apply ln_mono_le; lra).
  assert (Hu : ln x <= ln 90100) by (apply ln_mono_le; lra).
  unfold App2.mu, App2.sigma. split.
  - apply Rmult_le_reg_r with 0.95; [lra|].
    unfold Rdiv. rewrite Rmult_assoc, Rinv_l; lra.
  - apply Rmult_le_reg_r with 0.95; [lra|].
    unfold Rdiv. rewrite Rmult_assoc, Rinv_l; lra.
Qed.

(** The cumulative trace [App2.py] draws, [cdf*100] over its grid, is at
    least 101 at sample 300 (income about 90091) and at most 99.6 at the
    last sample (income 300000): the curve labelled "Cumulative %" rises
    above 100 and comes down again. *)
Theorem App2_cumulative_trace_overshoots :
  exists r300 r999,
    nth 300 App2.cdf_percent NaN = Fin r300
    /\ nth 999 App2.cdf_percent NaN = Fin r999
    /\ 101 <= r300
    /\ r999 <= 99.6.
Proof.
  assert (H300 : INR 300 = 300) by (rewrite INR_IZR_INZ; reflexivity).
  pose proof INR_999 as H999.
  do 2 eexists.
  split; [apply App2_cdf_percent_nth; lia|].
  split; [apply App2_cdf_percent_nth; lia|].
  split.
  - pose proof (App2_cdf_real_above_one (1 + INR 300 * (299999 / 999))) as H.
    rewrite H300 in *. assert (Hr : 90000 <= 1 + 300 * (299999 / 999) <= 90100)
      by (split; lra).
    specialize (H Hr). lra.
  - rewrite H999.
    replace (1 + 999 * (299999 / 999)) with 300000 by lra.
    pose proof App2_cdf_real_300000. lra.
Qed.

(** ** The Gaussian integral: [erf] stays between -1 and 1

    With [I x] the integral of [exp (- t^2)] over [[0, x]] and [G x] the
    integral of [exp (- (1 + s^2) x^2) / (1 + s^2)] over [[0, 1]], the sum
    [I x ^ 2 + G x] has derivative 0 and equals [PI / 4] at 0. *)

(** The integral behind [erf], as a function of its upper end. *)
Definition erf_integral (x : R) : R :=
  RiemannInt (Scipy.erf_kernel_integrable 0 x).

Lemma erf_integral_deriv (x : R) :
  derivable_pt_lim erf_integral x (Scipy.erf_kernel x).
Proof.
  assert (h : x - 1 <= x + 1) by lra.
  assert (C0 : forall t, x - 1 <= t <= x + 1 ->
                 continuity_pt Scipy.erf_kernel t)
    by (intros t _; apply Scipy.erf_kernel_continuity).
  set (P := primitive h (FTC_P1 h C0)).
  apply derivable_pt_lim_locally_ext
    with (f := fun z => P z + erf_integral (x - 1)) (a := x - 1) (b := x + 1).
  - lra.
  - intros z [Hz1 Hz2]. unfold P, primitive.
    destruct (Rle_dec (x - 1) z) as [r | n]; [|lra].
    destruct (Rle_dec z (x + 1)) as [r0 | n]; [|lra].
    unfold erf_integral. rewrite Rplus_comm. apply RiemannInt_P26.
  - replace (Scipy.erf_kernel x) with (Scipy.erf_kernel x + 0) by ring.
    apply (derivable_pt_lim_plus P (fct_cte (erf_integral (x - 1)))).
    + apply RiemannInt_P28. lra.
    + apply derivable_pt_lim_const.
Qed.

(** The integral of a continuous derivative is the increment. *)
Lemma integral_eq_antiderivative (f H : R -> R) (a b : R)
  (pr : Riemann_integrable f a b) :
  a <= b ->
  (forall x, a <= x <= b -> continuity_pt f x) ->
  (forall c, a <= c <= b -> derivable_pt_lim H c (f c)) ->
  RiemannInt pr = H b - H a.
Proof.
  intros Hab C0 dH.
  destruct Hab as [Hlt | Heq].
  - assert (h : a <= b) by lra.
    rewrite (RiemannInt_P20 h (FTC_P1 h C0) pr).
    set (F := primitive h (FTC_P1 h C0)).
    destruct (MVT_cor2 (fun x => F x - H x) (fun x => f x - f x) a b Hlt)
      as (c & Hc & Hin).
    + intros c Hc.
      apply derivable_pt_lim_minus;
        [apply RiemannInt_P28; exact Hc | apply dH; exact Hc].
    + replace (f c - f c) with 0 in Hc by ring. lra.
  - subst b. rewrite RiemannInt_P9. ring.
Qed.

(** Differentiation under the integral sign on [[0, 1]], for an integrand
    whose first-order remainder in the parameter is uniformly quadratic. *)
Lemma param_integral_deriv (g h : R -> R -> R) (M x : R)
  (prg : forall y, Riemann_integrable (g y) 0 1)
  (prh : Riemann_integrable (h x) 0 1) :
  0 <= M ->
  (forall d s, 0 <= s <= 1 ->
     - (M * (d * d)) <= g (x + d) s - g x s - d * h x s <= M * (d * d)) ->
  derivable_pt_lim (fun y => RiemannInt (prg y)) x (RiemannInt prh).
Proof.
  intros HM Hrem eps Heps.
  assert (Hdelta : 0 < eps / (M + 1)) by (apply Rdiv_lt_0_compat; lra).
  exists (mkposreal _ Hdelta). intros d Hd0 Hd. cbn [pos] in Hd.
  set (A := RiemannInt (prg (x + d))).
  set (B := RiemannInt (prg x)).
  set (L := RiemannInt prh).
  pose (pr1 := RiemannInt_P10 (-1) (prg (x + d)) (prg x)).
  pose (pr2 := RiemannInt_P10 (- d) pr1 prh).
  assert (HQ : RiemannInt pr2 = A - B - d * L).
  { rewrite (RiemannInt_P13 pr1 prh pr2).
    rewrite (RiemannInt_P13 (prg (x + d)) (prg x) pr1).
    unfold A, B, L. ring. }
  set (Q := RiemannInt pr2) in *.
  assert (Hup : Q <= M * (d * d)).
  { pose proof (RiemannInt_P19 pr2 (RiemannInt_P14 0 1 (M * (d * d)))) as H19.
    rewrite RiemannInt_P15 in H19.
    replace (M * (d * d) * (1 - 0)) with (M * (d * d)) in H19 by ring.
    apply H19; [lra|]. intros s Hs. unfold fct_cte.
    assert (Hs' : 0 <= s <= 1) by lra.
    pose proof (Hrem d s Hs'). lra. }
  assert (Hlow : - (M * (d * d)) <= Q).
  { pose proof (RiemannInt_P19 (RiemannInt_P14 0 1 (- (M * (d * d)))) pr2)
      as H19.
    rewrite RiemannInt_P15 in H19.
    replace (- (M * (d * d)) * (1 - 0)) with (- (M * (d * d))) in H19 by ring.
    apply H19; [lra|]. intros s Hs. unfold fct_cte.
    assert (Hs' : 0 <= s <= 1) by lra.
    pose proof (Hrem d s Hs'). lra. }
  assert (Hv : (A - B) / d - L = Q / d) by (rewrite HQ; field; exact Hd0).
  fold A B L. rewrite Hv.
  assert (HMe : M * (eps / (M + 1)) < eps).
  { apply Rmult_lt_reg_r with (M + 1); [lra|].
    replace (M * (eps / (M + 1)) * (M + 1)) with (M * eps) by (field; lra).
    nra. }
  assert (Hkey : forall a, 0 < a -> a < eps / (M + 1) ->
                   M * (a * a) < eps * a).
  { intros a Ha Hlt.
    assert (M * a <= M * (eps / (M + 1))) by (apply Rmult_le_compat_l; lra).
    assert (M * a < eps) by lra.
    replace (M * (a * a)) with (M * a * a) by ring.
    apply Rmult_lt_compat_r; assumption. }
  apply Rabs_def1.
  - destruct (Rtotal_order d 0) as [Hneg | [Hz | Hpos]]; [|lra|].
    + rewrite Rabs_left in Hd by exact Hneg.
      apply Rmult_lt_reg_r with (- d); [lra|].
      replace (Q / d * - d) with (- Q) by (field; lra).
      pose proof (Hkey (- d)). nra.
    + rewrite Rabs_right in Hd by lra.
      apply Rmult_lt_reg_r with d; [lra|].
      replace (Q / d * d) with Q by (field; lra).
      pose proof (Hkey d). nra.
  - destruct (Rtotal_order d 0) as [Hneg | [Hz | Hpos]]; [|lra|].
    + rewrite Rabs_left in Hd by exact Hneg.
      apply Rmult_lt_reg_r with (- d); [lra|].
      replace (Q / d * - d) with (- Q) by (field; lra).
      pose proof (Hkey (- d)). nra.
    + rewrite Rabs_right in Hd by lra.
      apply Rmult_lt_reg_r with d; [lra|].
      replace (Q / d * d) with Q by (field; lra).
      pose proof (Hkey d). nra.
Qed.

Lemma derivable_pt_lim_linear (c t : R) :
  derivable_pt_lim (fun y => y * c) t c.
Proof.
  apply derivable_pt_lim_ext with (f := mult_real_fct c id).
  - intros z. unfold mult_real_fct, id. ring.
  - replace c with (c * 1) at 2 by ring.
    apply derivable_pt_lim_scal, derivable_pt_lim_id.
Qed.

(** First-order remainder of a function with bounded second derivative. *)
Lemma taylor2_bound (phi phi' phi'' : R -> R) (B : R) :
  (forall y, derivable_pt_lim phi y (phi' y)) ->
  (forall y, derivable_pt_lim phi' y (phi'' y)) ->
  (forall y, - B <= phi'' y <= B) ->
  forall a d,
    - (B * (d * d)) <= phi (a + d) - phi a - d * phi' a <= B * (d * d).
Proof.
  intros D1 D2 HB a d.
  set (psi := fun t => phi t - t * phi' a).
  set (psi' := fun t => phi' t - phi' a).
  assert (Dpsi : forall t, derivable_pt_lim psi t (psi' t)).
  { intros t. unfold psi, psi'.
    apply derivable_pt_lim_minus; [apply D1 | apply derivable_pt_lim_linear]. }
  destruct (Rtotal_order d 0) as [Hneg | [-> | Hpos]].
  - destruct (MVT_cor2 psi psi' (a + d) a) as (c & Hc & Hin); [lra| |].
    { intros t _. apply Dpsi. }
    destruct (MVT_cor2 phi' phi'' c a) as (e & He & Hein); [lra| |].
    { intros t _. apply D2. }
    pose proof (HB e) as [Hb1 Hb2].
    unfold psi, psi' in Hc.
    assert (Ht : phi (a + d) - phi a - d * phi' a
                 = phi'' e * (a - c) * (- d)).
    { replace (phi' c - phi' a) with (- (phi'' e * (a - c))) in Hc by lra.
      nra. }
    rewrite Ht.
    assert (0 < a - c) by lra. assert (a - c < - d) by lra.
    assert (0 <= B) by lra.
    assert (Hprod : 0 <= (a - c) * (- d) <= d * d) by nra.
    split; nra.
  - rewrite Rplus_0_r. split; lra.
  - destruct (MVT_cor2 psi psi' a (a + d)) as (c & Hc & Hin); [lra| |].
    { intros t _. apply Dpsi. }
    destruct (MVT_cor2 phi' phi'' a c) as (e & He & Hein); [lra| |].
    { intros t _. apply D2. }
    pose proof (HB e) as [Hb1 Hb2].
    unfold psi, psi' in Hc.
    assert (Ht : phi (a + d) - phi a - d * phi' a
                 = phi'' e * (c - a) * d).
    { rewrite He in Hc. nra. }
    rewrite Ht.
    assert (0 < c - a) by lra. assert (c - a < d) by lra.
    assert (0 <= B) by lra.
    assert (Hprod : 0 <= (c - a) * d <= d * d) by nra.
    split; nra.
Qed.

(** [exp (- (c y^2))] and its first two derivatives in [y]. *)
Lemma gauss_c_deriv (c y : R) :
  derivable_pt_lim (fun t => exp (- (c * (t * t)))) y
    (- (2 * c * y) * exp (- (c * (y * y)))).
Proof.
  apply derivable_pt_lim_ext
    with (f := comp exp (- (mult_real_fct c (id * id)))%F).
  - intros z. reflexivity.
  - replace (- (2 * c * y) * exp (- (c * (y * y))))
      with (exp ((- (mult_real_fct c (id * id)))%F y)
            * - (c * (1 * id y + id y * 1)))
      by (unfold opp_fct, mult_real_fct, mult_fct, id; ring).
    apply derivable_pt_lim_comp; [|apply derivable_pt_lim_exp].
    apply derivable_pt_lim_opp, derivable_pt_lim_scal, derivable_pt_lim_mult;
      apply derivable_pt_lim_id.
Qed.

Lemma u_exp_neg_le_1 (u : R) : 0 <= u -> u * exp (- u) <= 1.
Proof.
  intros Hu. rewrite exp_Ropp.
  pose proof (exp_pos u) as He.
  assert (Hge : u <= exp u).
  { destruct Hu as [Hu | <-]; [|lra].
    pose proof (exp_ineq1 u). assert (u <> 0) by lra. lra. }
  apply Rmult_le_reg_r with (exp u); [exact He|].
  rewrite Rmult_assoc, Rinv_l; lra.
Qed.

Lemma exp_neg_le_1 (u : R) : 0 <= u -> exp (- u) <= 1.
Proof.
  intros Hu. rewrite <- exp_0. apply exp_mono_le. lra.
Qed.

(** The integrand of the auxiliary integral and its derivative in the
    parameter. *)
Definition aux_integrand (x s : R) : R :=
  exp (- ((1 + s * s) * (x * x))) / (1 + s * s).

Definition aux_integrand' (x s : R) : R :=
  - (2 * x) * exp (- ((1 + s * s) * (x * x))).

Lemma aux_integrand_remainder (x d s : R) :
  - (4 * (d * d))
  <= aux_integrand (x + d) s - aux_integrand x s - d * aux_integrand' x s
  <= 4 * (d * d).
Proof.
  set (c := 1 + s * s).
  assert (Hc : 1 <= c) by (unfold c; nra).
  pose (phi := fun y => exp (- (c * (y * y))) / c).
  pose (phi' := fun y => - (2 * y) * exp (- (c * (y * y)))).
  pose (phi'' := fun y => (- 2 + 4 * (c * (y * y))) * exp (- (c * (y * y)))).
  apply (taylor2_bound phi phi' phi'' 4).
  - intros y. unfold phi, phi'.
    apply derivable_pt_lim_ext
      with (f := mult_real_fct (/ c) (fun t => exp (- (c * (t * t))))).
    + intros z. unfold mult_real_fct. field. lra.
    + replace (- (2 * y) * exp (- (c * (y * y))))
        with (/ c * (- (2 * c * y) * exp (- (c * (y * y)))))
        by (field; lra).
      apply derivable_pt_lim_scal, gauss_c_deriv.
  - intros y.
    pose (E := fun t => exp (- (c * (t * t)))).
    assert (H1 : derivable_pt_lim (mult_real_fct (- 2) id) y (- 2 * 1))
      by apply derivable_pt_lim_scal, derivable_pt_lim_id.
    assert (H2 : derivable_pt_lim E y (- (2 * c * y) * E y))
      by apply gauss_c_deriv.
    pose proof (derivable_pt_lim_mult _ _ _ _ _ H1 H2) as H.
    replace (phi'' y)
      with (- 2 * 1 * E y + mult_real_fct (- 2) id y * (- (2 * c * y) * E y))
      by (unfold phi'', E, mult_real_fct, id; ring).
    apply (derivable_pt_lim_ext (mult_real_fct (- 2) id * E)%F); [|exact H].
    intros z. unfold phi', E, mult_fct, mult_real_fct, id. ring.
  - intros y. unfold phi''.
    set (u := c * (y * y)).
    assert (Hu : 0 <= u) by (unfold u; nra).
    pose proof (u_exp_neg_le_1 u Hu). pose proof (exp_neg_le_1 u Hu).
    pose proof (exp_pos (- u)).
    assert (0 <= u * exp (- u)) by (apply Rmult_le_pos; lra).
    split; nra.
Qed.

Lemma aux_integrand_continuity (x : R) : continuity (aux_integrand x).
Proof.
  unfold aux_integrand. intros s. reg. nra.
Qed.

Lemma aux_integrand'_continuity (x : R) : continuity (aux_integrand' x).
Proof.
  unfold aux_integrand'. reg.
Qed.

Lemma aux_integrable (x : R) : Riemann_integrable (aux_integrand x) 0 1.
Proof.
  apply continuity_implies_RiemannInt; [lra|].
  intros s _. apply aux_integrand_continuity.
Qed.

Lemma aux'_integrable (x : R) : Riemann_integrable (aux_integrand' x) 0 1.
Proof.
  apply continuity_implies_RiemannInt; [lra|].
  intros s _. apply aux_integrand'_continuity.
Qed.

(** [G x = integral over [0,1] of exp (- (1 + s^2) x^2) / (1 + s^2)] *)
Definition aux_integral (x : R) : R := RiemannInt (aux_integrable x).

Lemma aux_integral_deriv (x : R) :
  derivable_pt_lim aux_integral x
    (- (2 * exp (- (x * x))) * erf_integral x).
Proof.
  assert (Hval : RiemannInt (aux'_integrable x)
                 = - (2 * exp (- (x * x))) * erf_integral x).
  { rewrite (integral_eq_antiderivative (aux_integrand' x)
               (fun s => - (2 * exp (- (x * x))) * erf_integral (x * s))).
    - rewrite Rmult_1_r, Rmult_0_r.
      unfold erf_integral at 2. rewrite RiemannInt_P9. ring.
    - lra.
    - intros s _. apply aux_integrand'_continuity.
    - intros s _.
      replace (aux_integrand' x s)
        with (- (2 * exp (- (x * x))) * (Scipy.erf_kernel (x * s) * x)).
      + apply derivable_pt_lim_scal.
        apply (derivable_pt_lim_comp (fun t => x * t) erf_integral).
        * apply derivable_pt_lim_ext with (f := mult_real_fct x id);
            [reflexivity|].
          replace x with (x * 1) at 2 by ring.
          apply derivable_pt_lim_scal, derivable_pt_lim_id.
        * apply erf_integral_deriv.
      + unfold aux_integrand', Scipy.erf_kernel.
        replace (- ((1 + s * s) * (x * x)))
          with (- (x * x) + - (x * s * (x * s))) by ring.
        rewrite exp_plus. ring. }
  rewrite <- Hval.
  apply (param_integral_deriv aux_integrand aux_integrand' 4 x
           aux_integrable (aux'_integrable x)); [lra|].
  intros d s _. apply aux_integrand_remainder.
Qed.

Lemma aux_integral_0 : aux_integral 0 = PI / 4.
Proof.
  unfold aux_integral.
  rewrite (integral_eq_antiderivative (aux_integrand 0) atan).
  - rewrite atan_1, atan_0. ring.
  - lra.
  - intros s _. apply aux_integrand_continuity.
  - intros s _.
    replace (aux_integrand 0 s) with (/ (1 + s ^ 2)).
    + apply derivable_pt_lim_atan.
    + unfold aux_integrand.
      replace (- ((1 + s * s) * (0 * 0))) with 0 by ring.
      rewrite exp_0. field. nra.
Qed.

(** The square of the error-function integral and the auxiliary integral
    add up to [PI / 4] everywhere. *)
Lemma erf_integral_sqr_plus_aux (x : R) :
  erf_integral x * erf_integral x + aux_integral x = PI / 4.
Proof.
  set (F := fun t => erf_integral t * erf_integral t + aux_integral t).
  assert (DF : forall t, derivable_pt_lim F t 0).
  { intros t. unfold F.
    replace 0
      with (Scipy.erf_kernel t * erf_integral t
            + erf_integral t * Scipy.erf_kernel t
            + - (2 * exp (- (t * t))) * erf_integral t)
      by (unfold Scipy.erf_kernel; ring).
    apply (derivable_pt_lim_plus (erf_integral * erf_integral)%F aux_integral).
    - apply derivable_pt_lim_mult; apply erf_integral_deriv.
    - apply aux_integral_deriv. }
  assert (F0 : F 0 = PI / 4).
  { unfold F. rewrite aux_integral_0. unfold erf_integral.
    rewrite RiemannInt_P9. ring. }
  change (F x = PI / 4). rewrite <- F0.
  destruct (Rtotal_order x 0) as [Hneg | [-> | Hpos]]; [| reflexivity |].
  - destruct (MVT_cor2 F (fun _ => 0) x 0 Hneg) as (c & Hc & _).
    + intros t _. apply DF.
    + lra.
  - destruct (MVT_cor2 F (fun _ => 0) 0 x Hpos) as (c & Hc & _).
    + intros t _. apply DF.
    + lra.
Qed.

Lemma aux_integral_bounds (x : R) :
  exp (- (2 * (x * x))) / 2 <= aux_integral x <= exp (- (x * x)).
Proof.
  unfold aux_integral. split.
  - pose proof (integral_ge_antiderivative (aux_integrand x)
                  (fun s => s * (exp (- (2 * (x * x))) / 2))
                  (fun _ => exp (- (2 * (x * x))) / 2) 0 1
                  (aux_integrable x)) as H.
    replace (exp (- (2 * (x * x))) / 2)
      with (1 * (exp (- (2 * (x * x))) / 2) - 0 * (exp (- (2 * (x * x))) / 2))
      at 1 by ring.
    apply H.
    + lra.
    + intros s _. apply aux_integrand_continuity.
    + intros s _. apply derivable_pt_lim_linear.
    + intros s [Hs0 Hs1]. unfold aux_integrand.
      assert (Hc : 1 <= 1 + s * s <= 2) by nra.
      assert (He : exp (- (2 * (x * x))) <= exp (- ((1 + s * s) * (x * x))))
        by (apply exp_mono_le; nra).
      pose proof (exp_pos (- (2 * (x * x)))) as Hp.
      set (E := exp (- ((1 + s * s) * (x * x)))) in *.
      set (E2 := exp (- (2 * (x * x)))) in *.
      apply Rmult_le_reg_r with (1 + s * s); [lra|].
      unfold Rdiv at 2. rewrite Rmult_assoc, Rinv_l by lra. nra.
  - pose proof (RiemannInt_P19 (aux_integrable x)
                  (RiemannInt_P14 0 1 (exp (- (x * x))))) as H19.
    rewrite RiemannInt_P15 in H19.
    replace (exp (- (x * x)) * (1 - 0)) with (exp (- (x * x))) in H19 by ring.
    apply H19; [lra|]. intros s Hs. unfold fct_cte, aux_integrand.
    assert (Hc : 1 <= 1 + s * s) by nra.
    assert (He : exp (- ((1 + s * s) * (x * x))) <= exp (- (x * x)))
      by (apply exp_mono_le; nra).
    pose proof (exp_pos (- ((1 + s * s) * (x * x)))) as Hp.
    set (E := exp (- ((1 + s * s) * (x * x)))) in *.
    apply Rmult_le_reg_r with (1 + s * s); [lra|].
    unfold Rdiv. rewrite Rmult_assoc, Rinv_l by lra.
    pose proof (exp_pos (- (x * x))). nra.
Qed.

(** The error function stays strictly between -1 and 1. *)
Lemma erf_bounds (x : R) : -1 < Scipy.erf x < 1.
Proof.
  pose proof (erf_integral_sqr_plus_aux x) as HF.
  pose proof (aux_integral_bounds x) as [Hlo _].
  pose proof (exp_pos (- (2 * (x * x)))) as Hp.
  pose proof sqrt_PI_bounds as [Hs0 _].
  assert (Hs : sqrt PI * sqrt PI = PI)
    by (apply sqrt_def; pose proof PI_RGT_0; lra).
  change (Scipy.erf x) with (2 / sqrt PI * erf_integral x).
  set (I := erf_integral x) in *. set (r := sqrt PI) in *.
  assert (HI : I * I < r * r / 4) by lra.
  assert (Hab : - (r / 2) < I < r / 2) by (split; nra).
  assert (Hv : 2 / r * I = I / (r / 2)) by (field; lra).
  rewrite Hv. destruct Hab as [Ha Hb]. split.
  - apply Rmult_lt_reg_r with (r / 2); [lra|].
    replace (I / (r / 2) * (r / 2)) with I by (field; lra). lra.
  - apply Rmult_lt_reg_r with (r / 2); [lra|].
    replace (I / (r / 2) * (r / 2)) with I by (field; lra). lra.
Qed.

(** Beyond 0 the error function is within [2 exp (- x^2)] of 1. *)
Lemma erf_tail (x : R) : 0 <= x -> 1 - 2 * exp (- (x * x)) <= Scipy.erf x.
Proof.
  intros Hx.
  pose proof (erf_integral_sqr_plus_aux x) as HF.
  pose proof (aux_integral_bounds x) as [_ Hhi].
  pose proof (erf_bounds x) as [_ Hlt1].
  pose proof (erf_mono_le 0 x Hx) as Hge0. rewrite erf_0 in Hge0.
  pose proof sqrt_PI_bounds as [Hs0 _].
  pose proof PI_bounds as [Hpi _].
  assert (Hs : sqrt PI * sqrt PI = PI) by (apply sqrt_def; lra).
  assert (He : Scipy.erf x * Scipy.erf x
               = 4 / PI * (erf_integral x * erf_integral x)).
  { change (Scipy.erf x) with (2 / sqrt PI * erf_integral x).
    rewrite <- Hs at 3. field. lra. }
  set (e := Scipy.erf x) in *. set (E := exp (- (x * x))) in *.
  assert (Hsq : 1 - 4 / PI * E <= e * e).
  { rewrite He.
    replace (erf_integral x * erf_integral x)
      with (PI / 4 - aux_integral x) by lra.
    assert (H4 : 0 < 4 / PI) by (apply Rdiv_lt_0_compat; lra).
    replace (4 / PI * (PI / 4 - aux_integral x))
      with (1 - 4 / PI * aux_integral x) by (field; lra).
    nra. }
  assert (H4 : 4 / PI <= 2).
  { apply Rmult_le_reg_r with PI; [lra|].
    unfold Rdiv. rewrite Rmult_assoc, Rinv_l; lra. }
  assert (HE : 0 < E) by apply exp_pos.
  nra.
Qed.

(** ** The cumulative function of [app.py] is a distribution function *)

Lemma erf_integral_odd (x : R) : erf_integral (- x) = - erf_integral x.
Proof.
  set (D := fun t => erf_integral t + erf_integral (- t)).
  assert (DD : forall t, derivable_pt_lim D t 0).
  { intros t. unfold D.
    replace 0 with (Scipy.erf_kernel t + Scipy.erf_kernel (- t) * - 1)
      by (unfold Scipy.erf_kernel; replace (- t * - t) with (t * t) by ring;
          ring).
    apply (derivable_pt_lim_plus erf_integral (comp erf_integral (- id)%F)).
    - apply erf_integral_deriv.
    - apply derivable_pt_lim_comp.
      + apply derivable_pt_lim_opp, derivable_pt_lim_id.
      + apply erf_integral_deriv. }
  assert (D0 : D 0 = 0).
  { unfold D, erf_integral. rewrite Ropp_0, RiemannInt_P9. ring. }
  assert (HD : D x = 0).
  { rewrite <- D0.
    destruct (Rtotal_order x 0) as [Hneg | [-> | Hpos]]; [| reflexivity |].
    - destruct (MVT_cor2 D (fun _ => 0) x 0 Hneg) as (c & Hc & _);
        [intros t _; apply DD | lra].
    - destruct (MVT_cor2 D (fun _ => 0) 0 x Hpos) as (c & Hc & _);
        [intros t _; apply DD | lra]. }
  unfold D in HD. lra.
Qed.

Lemma erf_odd (x : R) : Scipy.erf (- x) = - Scipy.erf x.
Proof.
  change (Scipy.erf (- x)) with (2 / sqrt PI * erf_integral (- x)).
  change (Scipy.erf x) with (2 / sqrt PI * erf_integral x).
  rewrite erf_integral_odd. ring.
Qed.

Lemma ndtr_bounds (z : R) : 0 < Scipy.ndtr z < 1.
Proof.
  unfold Scipy.ndtr. pose proof (erf_bounds (z / sqrt 2)). lra.
Qed.

Lemma ndtr_opp (z : R) : Scipy.ndtr (- z) = 1 - Scipy.ndtr z.
Proof.
  unfold Scipy.ndtr.
  replace (- z / sqrt 2) with (- (z / sqrt 2)) by (unfold Rdiv; ring).
  rewrite erf_odd. lra.
Qed.

Lemma ndtr_upper_tail (z : R) :
  0 <= z -> 1 - exp (- (z * z / 2)) <= Scipy.ndtr z.
Proof.
  intros Hz. unfold Scipy.ndtr.
  pose proof sqrt2_pos as Hs.
  assert (Hs2 : sqrt 2 * sqrt 2 = 2) by (apply sqrt_def; lra).
  assert (Hy : 0 <= z / sqrt 2).
  { apply Rmult_le_pos; [exact Hz | left; apply Rinv_0_lt_compat, Hs]. }
  pose proof (erf_tail (z / sqrt 2) Hy) as Ht.
  replace (z / sqrt 2 * (z / sqrt 2)) with (z * z / 2) in Ht.
  - lra.
  - rewrite <- Hs2 at 1. field. lra.
Qed.

Lemma ndtr_lower_tail (z : R) :
  z <= 0 -> Scipy.ndtr z <= exp (- (z * z / 2)).
Proof.
  intros Hz.
  assert (Ho : 0 <= - z) by lra.
  pose proof (ndtr_upper_tail (- z) Ho) as Ht.
  rewrite ndtr_opp in Ht.
  replace (- z * - z / 2) with (z * z / 2) in Ht by (unfold Rdiv; ring).
  lra.
Qed.

Lemma ndtr_mono_le (x y : R) : x <= y -> Scipy.ndtr x <= Scipy.ndtr y.
Proof.
  intros [H | ->]; [left; apply ndtr_increasing; exact H | lra].
Qed.

(** The cumulative value [app.py] gets from the library, as a real. *)
Definition App_cdf_value (x : R) : R :=
  if Rlt_dec 0 x then Scipy.ndtr ((ln x - App.mu) / App.sigma) else 0.

Lemma App_lognorm_cdf_value (x : R) :
  Scipy.lognorm_cdf x App.sigma (exp App.mu) = Fin (App_cdf_value x).
Proof.
  unfold App_cdf_value. destruct (Rlt_dec 0 x) as [Hx | Hx].
  - apply App_lognorm_cdf_pos, Hx.
  - apply App_lognorm_cdf_nonpos. lra.
Qed.

Lemma App_cdf_value_bounds (x : R) : 0 <= App_cdf_value x < 1.
Proof.
  unfold App_cdf_value. destruct (Rlt_dec 0 x); [|lra].
  pose proof (ndtr_bounds ((ln x - App.mu) / App.sigma)). lra.
Qed.

Lemma App_z_mono (x1 x2 : R) :
  0 < x1 -> x1 <= x2 ->
  (ln x1 - App.mu) / App.sigma <= (ln x2 - App.mu) / App.sigma.
Proof.
  intros H1 H12. unfold Rdiv. apply Rmult_le_compat_r.
  - left. apply Rinv_0_lt_compat, App_sigma_pos.
  - pose proof (ln_mono_le x1 x2 H1 H12). lra.
Qed.

Lemma App_cdf_value_mono (x1 x2 : R) :
  x1 <= x2 -> App_cdf_value x1 <= App_cdf_value x2.
Proof.
  intros H12. unfold App_cdf_value.
  destruct (Rlt_dec 0 x1) as [H1 | H1]; destruct (Rlt_dec 0 x2) as [H2 | H2].
  - apply ndtr_mono_le, App_z_mono; assumption.
  - lra.
  - pose proof (ndtr_bounds ((ln x2 - App.mu) / App.sigma)). lra.
  - lra.
Qed.

Lemma App_cdf_value_increasing (x1 x2 : R) :
  0 < x2 -> x1 < x2 -> App_cdf_value x1 < App_cdf_value x2.
Proof.
  intros H2 H12. unfold App_cdf_value.
  destruct (Rlt_dec 0 x2) as [_ | ?]; [|lra].
  destruct (Rlt_dec 0 x1) as [H1 | H1].
  - apply ndtr_increasing. unfold Rdiv. apply Rmult_lt_compat_r.
    + apply Rinv_0_lt_compat, App_sigma_pos.
    + pose proof (ln_increasing x1 x2 H1 H12). lra.
  - pose proof (ndtr_bounds ((ln x2 - App.mu) / App.sigma)). lra.
Qed.

(** On every real income the cumulative function of [app.py] returns a
    finite number in [0, 1), and it never decreases as the income grows. *)
Theorem App_cumulative_is_distribution :
  (forall x, exists r,
     Scipy.lognorm_cdf x App.sigma (exp App.mu) = Fin r /\ 0 <= r < 1)
  /\ (forall x1 x2, x1 <= x2 ->
        fle (Scipy.lognorm_cdf x1 App.sigma (exp App.mu))
            (Scipy.lognorm_cdf x2 App.sigma (exp App.mu))).
Proof.
  split.
  - intros x. exists (App_cdf_value x).
    split; [apply App_lognorm_cdf_value | apply App_cdf_value_bounds].
  - intros x1 x2 H12. rewrite !App_lognorm_cdf_value.
    unfold fle. cbn [flt feq].
    destruct (App_cdf_value_mono x1 x2 H12) as [H | H]; [left | right];
      exact H.
Qed.

(** For every range with [low <= high], [app.py] reports a probability in
    [0, 1), a percentage in [0, 100) and a head count in
    [0, 20,000,000). *)
Theorem App_range_query_bounds (low high : R) :
  low <= high ->
  exists p,
    App.prob_between low high = Fin p /\ 0 <= p < 1
    /\ App.percentage low high = Fin (p * 100) /\ 0 <= p * 100 < 100
    /\ App.num_people low high = Fin (p * 20000000)
    /\ 0 <= p * 20000000 < 20000000.
Proof.
  intros Hlh.
  pose proof (App_cdf_value_mono low high Hlh) as Hm.
  pose proof (App_cdf_value_bounds low) as Hl.
  pose proof (App_cdf_value_bounds high) as Hh.
  exists (App_cdf_value high + - App_cdf_value low).
  unfold App.percentage, App.num_people, App.prob_between.
  rewrite !App_lognorm_cdf_value. cbn [fsub fneg fadd fmul lit].
  repeat split; lra.
Qed.

Lemma App_range_query_bounds_witness :
  exists p,
    App.prob_between 25000 100000 = Fin p /\ 0 <= p < 1
    /\ App.percentage 25000 100000 = Fin (p * 100) /\ 0 <= p * 100 < 100
    /\ App.num_people 25000 100000 = Fin (p * 20000000)
    /\ 0 <= p * 20000000 < 20000000.
Proof.
  apply (App_range_query_bounds 25000 100000). lra.
Defined.

(** ** The ends of the cumulative function of [app.py] *)

Lemma exp_neg_small (eps u : R) : 0 < eps -> / eps <= u -> exp (- u) < eps.
Proof.
  intros He Hu.
  pose proof (Rinv_0_lt_compat _ He) as Hi.
  assert (Hexp : u < exp u) by (pose proof (exp_ineq1 u); lra).
  rewrite exp_Ropp.
  rewrite <- (Rinv_inv eps).
  apply Rinv_0_lt_contravar; lra.
Qed.

(** Far enough out, half the square of the standard score beats [/ eps]. *)
Lemma half_square_large (eps z : R) :
  0 < eps -> Rmax 2 (/ eps) <= Rabs z -> / eps <= z * z / 2.
Proof.
  intros He Hz.
  pose proof (Rmax_l 2 (/ eps)) as H2. pose proof (Rmax_r 2 (/ eps)) as Hr.
  assert (Ha : 2 <= Rabs z) by lra.
  assert (Hsq : z * z = Rabs z * Rabs z).
  { unfold Rabs. destruct (Rcase_abs z); ring. }
  rewrite Hsq. nra.
Qed.

Lemma App_cdf_value_upper_end (eps : R) :
  0 < eps ->
  forall x, exp (App.mu + App.sigma * Rmax 2 (/ eps)) <= x ->
            1 - eps < App_cdf_value x.
Proof.
  intros He x Hx.
  pose proof App_sigma_pos as Hs.
  set (Z := Rmax 2 (/ eps)) in *.
  assert (HZ : 2 <= Z) by apply Rmax_l.
  assert (Hxpos : 0 < x)
    by (pose proof (exp_pos (App.mu + App.sigma * Z)); lra).
  unfold App_cdf_value. destruct (Rlt_dec 0 x) as [_ | ?]; [|lra].
  set (z := (ln x - App.mu) / App.sigma).
  assert (Hln : App.mu + App.sigma * Z <= ln x).
  { rewrite <- (ln_exp (App.mu + App.sigma * Z)).
    apply ln_mono_le; [apply exp_pos | exact Hx]. }
  assert (Hz : Z <= z).
  { unfold z. apply Rmult_le_reg_r with App.sigma; [exact Hs|].
    unfold Rdiv. rewrite Rmult_assoc, Rinv_l by lra. lra. }
  assert (Hz0 : 0 <= z) by lra.
  pose proof (ndtr_upper_tail z Hz0) as Ht.
  assert (Habs : Z <= Rabs z) by (rewrite Rabs_right; lra).
  pose proof (exp_neg_small eps (z * z / 2) He
                (half_square_large eps z He Habs)).
  lra.
Qed.

Lemma App_cdf_value_lower_end (eps : R) :
  0 < eps ->
  forall x, 0 < x <= exp (App.mu - App.sigma * Rmax 2 (/ eps)) ->
            App_cdf_value x < eps.
Proof.
  intros He x [Hxpos Hx].
  pose proof App_sigma_pos as Hs.
  set (Z := Rmax 2 (/ eps)) in *.
  assert (HZ : 2 <= Z) by apply Rmax_l.
  unfold App_cdf_value. destruct (Rlt_dec 0 x) as [_ | ?]; [|lra].
  set (z := (ln x - App.mu) / App.sigma).
  assert (Hln : ln x <= App.mu - App.sigma * Z).
  { rewrite <- (ln_exp (App.mu - App.sigma * Z)).
    apply ln_mono_le; [exact Hxpos | exact Hx]. }
  assert (Hz : z <= - Z).
  { unfold z. apply Rmult_le_reg_r with App.sigma; [exact Hs|].
    unfold Rdiv. rewrite Rmult_assoc, Rinv_l by lra. lra. }
  assert (Hz0 : z <= 0) by lra.
  pose proof (ndtr_lower_tail z Hz0) as Ht.
  assert (Habs : Z <= Rabs z) by (rewrite Rabs_left1; lra).
  pose proof (exp_neg_small eps (z * z / 2) He
                (half_square_large eps z He Habs)).
  lra.
Qed.

(** The cumulative function of [app.py] tends to 1 as the income grows
    without bound and to 0 as the income falls to 0 from above: for every
    tolerance there is an income beyond which the value is within the
    tolerance of 1, and one below which it is within the tolerance of 0. *)
Theorem App_cumulative_limits (eps : R) :
  0 < eps ->
  (exists big, forall x, big <= x ->
     exists r, Scipy.lognorm_cdf x App.sigma (exp App.mu) = Fin r
               /\ 1 - eps < r < 1)
  /\ (exists small, 0 < small /\ forall x, 0 < x <= small ->
     exists r, Scipy.lognorm_cdf x App.sigma (exp App.mu) = Fin r
               /\ 0 < r < eps).
Proof.
  intros He. split.
  - exists (exp (App.mu + App.sigma * Rmax 2 (/ eps))). intros x Hx.
    exists (App_cdf_value x). split; [apply App_lognorm_cdf_value|].
    split; [apply App_cdf_value_upper_end; assumption|].
    apply App_cdf_value_bounds.
  - exists (exp (App.mu - App.sigma * Rmax 2 (/ eps))).
    split; [apply exp_pos|]. intros x Hx.
    exists (App_cdf_value x). split; [apply App_lognorm_cdf_value|].
    split; [|apply App_cdf_value_lower_end; assumption].
    replace 0 with (App_cdf_value 0).
    + apply App_cdf_value_increasing; lra.
    + unfold App_cdf_value. destruct (Rlt_dec 0 0); [lra | reflexivity].
Qed.

Lemma App_cumulative_limits_witness :
  (exists big, forall x, big <= x ->
     exists r, Scipy.lognorm_cdf x App.sigma (exp App.mu) = Fin r
               /\ 1 - 0.001 < r < 1)
  /\ (exists small, 0 < small /\ forall x, 0 < x <= small ->
     exists r, Scipy.lognorm_cdf x App.sigma (exp App.mu) = Fin r
               /\ 0 < r < 0.001).
Proof.
  apply (App_cumulative_limits 0.001). lra.
Defined.

(** ** The cumulative trace of [app.py] *)



(** ** The density of [app.py] is the slope of its cumulative function *)

Lemma ndtr_deriv (z : R) :
  derivable_pt_lim Scipy.ndtr z (exp (- (z * z / 2)) / sqrt (2 * PI)).
Proof.
  pose proof sqrt2_pos as Hs2.
  assert (Hpi : 0 < sqrt PI) by (apply sqrt_lt_R0, PI_RGT_0).
  assert (Hsq2 : sqrt 2 * sqrt 2 = 2) by (apply sqrt_def; lra).
  set (f1 := fun y : R => y * / sqrt 2).
  assert (D1 : derivable_pt_lim f1 z (/ sqrt 2))
    by apply derivable_pt_lim_linear.
  assert (D2 : derivable_pt_lim (comp erf_integral f1) z
                 (Scipy.erf_kernel (f1 z) * / sqrt 2)).
  { apply derivable_pt_lim_comp; [exact D1 | apply erf_integral_deriv]. }
  assert (D3 : derivable_pt_lim
                 (mult_real_fct (/ sqrt PI) (comp erf_integral f1)) z
                 (/ sqrt PI * (Scipy.erf_kernel (f1 z) * / sqrt 2)))
    by (apply derivable_pt_lim_scal; exact D2).
  assert (D4 : derivable_pt_lim
                 (fct_cte (1 / 2)
                  + mult_real_fct (/ sqrt PI) (comp erf_integral f1))%F z
                 (0 + / sqrt PI * (Scipy.erf_kernel (f1 z) * / sqrt 2))).
  { apply derivable_pt_lim_plus; [apply derivable_pt_lim_const | exact D3]. }
  replace (exp (- (z * z / 2)) / sqrt (2 * PI))
    with (0 + / sqrt PI * (Scipy.erf_kernel (f1 z) * / sqrt 2)).
  - apply derivable_pt_lim_ext
      with (f := (fct_cte (1 / 2)
                  + mult_real_fct (/ sqrt PI) (comp erf_integral f1))%F);
      [|exact D4].
    intros t. unfold plus_fct, fct_cte, mult_real_fct, comp, f1.
    unfold Scipy.ndtr.
    change (Scipy.erf (t / sqrt 2))
      with (2 / sqrt PI * erf_integral (t / sqrt 2)).
    unfold Rdiv. field. lra.
  - unfold Scipy.erf_kernel, f1.
    replace (z * / sqrt 2 * (z * / sqrt 2)) with (z * z / 2)
      by (rewrite <- Hsq2 at 1; field; lra).
    rewrite sqrt_mult by (pose proof PI_RGT_0; lra).
    field. lra.
Qed.

Lemma Spec_ln_scale : ln Spec.scale = App.mu.
Proof. unfold Spec.scale, App.mu. apply ln_exp. Qed.

Lemma App_cdf_value_deriv (x : R) :
  0 < x -> derivable_pt_lim App_cdf_value x (Spec.density x).
Proof.
  intros Hx.
  pose proof App_sigma_pos as Hs.
  assert (Hpi : 0 < sqrt (2 * PI))
    by (apply sqrt_lt_R0; pose proof PI_RGT_0; lra).
  set (g := fun t : R => (ln t - App.mu) * / App.sigma).
  assert (Dg : derivable_pt_lim g x ((/ x - 0) * / App.sigma)).
  { unfold g.
    apply (derivable_pt_lim_ext
             (mult_real_fct (/ App.sigma) (ln - fct_cte App.mu)%F)).
    - intros t. unfold mult_real_fct, minus_fct, fct_cte. ring.
    - replace ((/ x - 0) * / App.sigma) with (/ App.sigma * (/ x - 0))
        by ring.
      apply derivable_pt_lim_scal, derivable_pt_lim_minus;
        [apply derivable_pt_lim_ln, Hx | apply derivable_pt_lim_const]. }
  assert (Dc : derivable_pt_lim (comp Scipy.ndtr g) x
                 (exp (- (g x * g x / 2)) / sqrt (2 * PI)
                  * ((/ x - 0) * / App.sigma))).
  { apply derivable_pt_lim_comp; [exact Dg | apply ndtr_deriv]. }
  replace (Spec.density x)
    with (exp (- (g x * g x / 2)) / sqrt (2 * PI)
          * ((/ x - 0) * / App.sigma)).
  - apply derivable_pt_lim_locally_ext
      with (f := comp Scipy.ndtr g) (a := x / 2) (b := x + 1);
      [lra | | exact Dc].
    intros t [Ht _]. unfold App_cdf_value, comp, g.
    destruct (Rlt_dec 0 t) as [_ | ?]; [reflexivity | lra].
  - unfold Spec.density. rewrite Spec_ln_scale.
    change Spec.shapeParameter with App.sigma. unfold g.
    replace ((ln x - App.mu) * / App.sigma
             * ((ln x - App.mu) * / App.sigma) / 2)
      with ((ln x - App.mu) * (ln x - App.mu)
            / (2 * (App.sigma * App.sigma))) by (field; lra).
    replace (- ((ln x - App.mu) * (ln x - App.mu)) 
             / (2 * (App.sigma * App.sigma)))
      with (- ((ln x - App.mu) * (ln x - App.mu)
            / (2 * (App.sigma * App.sigma)))) by (field; lra).
    field. lra.
Qed.

Lemma Spec_density_continuity (x : R) : 0 < x -> continuity_pt Spec.density x.
Proof.
  intros Hx. pose proof App_sigma_pos as Hs.
  assert (Hpi : 0 < sqrt (2 * PI))
    by (apply sqrt_lt_R0; pose proof PI_RGT_0; lra).
  unfold Spec.density. change Spec.shapeParameter with App.sigma.
  set (c := App.sigma * sqrt (2 * PI)).
  set (k := 2 * (App.sigma * App.sigma)).
  assert (Hc : 0 < c) by (apply Rmult_lt_0_compat; assumption).
  assert (Hk : 0 < k) by (unfold k; nra).
  assert (Cln : continuity_pt ln x).
  { apply derivable_continuous_pt. exists (/ x).
    apply derivable_pt_lim_ln, Hx. }
  set (q := (ln - fct_cte (ln Spec.scale))%F).
  assert (Cq : continuity_pt q x).
  { apply continuity_pt_minus; [exact Cln|].
    apply derivable_continuous_pt, derivable_pt_const. }
  assert (Cinv : continuity_pt (/ (id * fct_cte c))%F x).
  { apply continuity_pt_inv.
    - apply continuity_pt_mult.
      + apply derivable_continuous_pt, derivable_pt_id.
      + apply derivable_continuous_pt, derivable_pt_const.
    - unfold mult_fct, id, fct_cte. nra. }
  assert (Cexp : continuity_pt
            (comp exp (mult_real_fct (- / k) (q * q)%F)) x).
  { apply continuity_pt_comp.
    - apply continuity_pt_scal, continuity_pt_mult; exact Cq.
    - apply derivable_continuous_pt, derivable_pt_exp. }
  assert (Call := continuity_pt_mult _ _ x Cinv Cexp).
  assert (Heq : forall u,
            1 / (u * App.sigma * sqrt (2 * PI))
            * exp (- ((ln u - ln Spec.scale) * (ln u - ln Spec.scale))
                   / (2 * (App.sigma * App.sigma)))
            = ((/ (id * fct_cte c))
               * comp exp (mult_real_fct (- / k) (q * q)))%F u).
  { intros u.
    unfold mult_fct, inv_fct, comp, mult_real_fct, q, minus_fct, id,
      fct_cte, c, k, Rdiv.
    rewrite Rmult_1_l. f_equal; f_equal; ring. }
  intros eps He. destruct (Call eps He) as (d & Hd & Hlim).
  exists d. split; [exact Hd|]. intros t Ht.
  rewrite !Heq. apply Hlim, Ht.
Qed.


(** Near income 0 the Gaussian factor beats the division by the income. *)
Lemma small_income_decay (eps x : R) :
  0 < eps ->
  0 < x <= exp (App.mu - App.sigma * Rmax 4 (/ eps)) ->
  exp (- ((ln x - App.mu) / App.sigma * ((ln x - App.mu) / App.sigma) / 2))
  / x < eps.
Proof.
  intros He [Hxpos Hx].
  pose proof App_sigma_pos as Hs.
  set (Z := Rmax 4 (/ eps)) in *.
  assert (HZ4 : 4 <= Z) by apply Rmax_l.
  assert (HZe : / eps <= Z) by apply Rmax_r.
  set (z := (ln x - App.mu) / App.sigma).
  assert (Hln : ln x <= App.mu - App.sigma * Z).
  { rewrite <- (ln_exp (App.mu - App.sigma * Z)).
    apply ln_mono_le; [exact Hxpos | exact Hx]. }
  assert (Hz : z <= - Z).
  { unfold z. apply Rmult_le_reg_r with App.sigma; [exact Hs|].
    unfold Rdiv. rewrite Rmult_assoc, Rinv_l by lra. lra. }
  assert (Hxz : x = exp (App.mu + App.sigma * z)).
  { unfold z. replace (App.mu + App.sigma * ((ln x - App.mu) / App.sigma))
      with (ln x) by (field; lra).
    symmetry. apply exp_ln, Hxpos. }
  rewrite Hxz at 1. unfold Rdiv at 1. rewrite <- exp_Ropp, <- exp_plus.
  apply Rle_lt_trans with (exp (- (- z))).
  - apply exp_mono_le. unfold App.mu, App.sigma in *. nra.
  - apply exp_neg_small; [exact He | lra].
Qed.

Lemma Spec_density_form (x : R) :
  0 < x ->
  Spec.density x
  = exp (- ((ln x - App.mu) / App.sigma * ((ln x - App.mu) / App.sigma) / 2))
    / x * / (App.sigma * sqrt (2 * PI)).
Proof.
  intros Hx. pose proof App_sigma_pos as Hs.
  assert (Hpi : 0 < sqrt (2 * PI))
    by (apply sqrt_lt_R0; pose proof PI_RGT_0; lra).
  unfold Spec.density. rewrite Spec_ln_scale.
  change Spec.shapeParameter with App.sigma.
  replace (- ((ln x - App.mu) * (ln x - App.mu))
           / (2 * (App.sigma * App.sigma)))
    with (- ((ln x - App.mu) / App.sigma * ((ln x - App.mu) / App.sigma) / 2))
    by (field; lra).
  field. repeat split; lra.
Qed.

Lemma App_density_value_continuity (x : R) :
  continuity_pt App_density_value x.
Proof.
  destruct (Rtotal_order x 0) as [Hneg | [-> | Hpos]].
  - intros eps He. exists (- x). split; [lra|]. intros t [_ Ht].
    cbn in Ht. unfold Rdist in Ht. apply Rabs_def2 in Ht.
    unfold App_density_value.
    destruct (Rlt_dec 0 t); [lra|]. destruct (Rlt_dec 0 x); [lra|].
    cbn. unfold Rdist. rewrite Rminus_diag, Rabs_R0. exact He.
  - pose proof App_sigma_pos as Hs.
    assert (Hpi : 0 < sqrt (2 * PI))
      by (apply sqrt_lt_R0; pose proof PI_RGT_0; lra).
    assert (Hc : 0 < App.sigma * sqrt (2 * PI))
      by (apply Rmult_lt_0_compat; assumption).
    intros eps He.
    set (e' := eps * (App.sigma * sqrt (2 * PI))).
    assert (He' : 0 < e') by (apply Rmult_lt_0_compat; assumption).
    exists (exp (App.mu - App.sigma * Rmax 4 (/ e'))).
    split; [apply exp_pos|]. intros t [_ Ht].
    cbn in Ht. unfold Rdist in Ht. apply Rabs_def2 in Ht.
    cbn. unfold Rdist. unfold App_density_value.
    destruct (Rlt_dec 0 0) as [? | _]; [lra|].
    destruct (Rlt_dec 0 t) as [Ht0 | _];
      [|rewrite Rminus_diag, Rabs_R0; exact He].
    rewrite Rminus_0_r, (Spec_density_form t Ht0).
    assert (Hd := small_income_decay e' t He' ltac:(lra)).
    set (E := exp _ / t) in *.
    assert (HE : 0 < E).
    { unfold E. apply Rdiv_lt_0_compat; [apply exp_pos | exact Ht0]. }
    pose proof (Rinv_0_lt_compat _ Hc) as Hic.
    rewrite Rabs_right by (apply Rle_ge; nra).
    apply Rmult_lt_reg_r with (App.sigma * sqrt (2 * PI)); [exact Hc|].
    rewrite Rmult_assoc, Rinv_l by lra. unfold e' in Hd. lra.
  - pose proof (Spec_density_continuity x Hpos) as Cs.
    intros eps He. destruct (Cs eps He) as (d & Hd & Hlim).
    exists (Rmin d x). split; [apply Rmin_pos; assumption|].
    intros t [Htd Ht].
    assert (Ht0 : 0 < t).
    { pose proof (Rmin_r d x). cbn in Ht.
      unfold Rdist in Ht. apply Rabs_def2 in Ht. lra. }
    unfold App_density_value.
    destruct (Rlt_dec 0 t) as [_ | ?]; [|lra].
    destruct (Rlt_dec 0 x) as [_ | ?]; [|lra].
    apply Hlim. split; [exact Htd|].
    eapply Rlt_le_trans; [exact Ht | apply Rmin_l].
Qed.

Lemma App_cdf_value_deriv_all (x : R) :
  derivable_pt_lim App_cdf_value x (App_density_value x).
Proof.
  destruct (Rtotal_order x 0) as [Hneg | [-> | Hpos]].
  - replace (App_density_value x) with 0
      by (unfold App_density_value; destruct (Rlt_dec 0 x); [lra|reflexivity]).
    apply derivable_pt_lim_locally_ext
      with (f := fct_cte 0) (a := x - 1) (b := 0);
      [lra | | apply derivable_pt_lim_const].
    intros t [_ Ht]. unfold App_cdf_value, fct_cte.
    destruct (Rlt_dec 0 t); [lra | reflexivity].
  - replace (App_density_value 0) with 0
      by (unfold App_density_value; destruct (Rlt_dec 0 0); [lra|reflexivity]).
    intros eps He.
    assert (Hd : 0 < exp (App.mu - App.sigma * Rmax 4 (/ eps)))
      by apply exp_pos.
    exists (mkposreal _ Hd). intros h Hh0 Hh. cbn in Hh.
    apply Rabs_def2 in Hh.
    rewrite Rplus_0_l, Rminus_0_r.
    unfold App_cdf_value. destruct (Rlt_dec 0 0) as [? | _]; [lra|].
    rewrite Rminus_0_r.
    destruct (Rlt_dec 0 h) as [Hh1 | Hh1].
    + set (z := (ln h - App.mu) / App.sigma).
      assert (Hdec := small_income_decay eps h He ltac:(lra)).
      fold z in Hdec.
      assert (Hz0 : z <= 0).
      { unfold z. pose proof App_sigma_pos as Hs.
        assert (Hln : ln h <= App.mu - App.sigma * Rmax 4 (/ eps)).
        { rewrite <- (ln_exp (App.mu - App.sigma * Rmax 4 (/ eps))).
          apply ln_mono_le; lra. }
        pose proof (Rmax_l 4 (/ eps)).
        apply Rmult_le_reg_r with App.sigma; [exact Hs|].
        unfold Rdiv. rewrite Rmult_assoc, Rinv_l by lra. nra. }
      pose proof (ndtr_lower_tail z Hz0) as Ht.
      pose proof (ndtr_bounds z) as [Hb _].
      pose proof (Rinv_0_lt_compat _ Hh1) as Hih.
      rewrite Rabs_right
        by (apply Rle_ge, Rmult_le_pos; [lra | left; exact Hih]).
      apply Rle_lt_trans with (exp (- (z * z / 2)) / h); [|exact Hdec].
      unfold Rdiv. apply Rmult_le_compat_r; [left; exact Hih | exact Ht].
    + unfold Rdiv. rewrite Rmult_0_l, Rabs_R0. exact He.
  - unfold App_density_value. destruct (Rlt_dec 0 x); [|lra].
    apply App_cdf_value_deriv, Hpos.
Qed.

(** For every range [low <= high], the probability [app.py] reports is the
    area under the density it plots: the library's density is integrable
    over the range and its integral is [prob_between]. *)
Theorem App_range_probability_is_area (low high : R) :
  low <= high ->
  exists (f : R -> R) (pr : Riemann_integrable f low high),
    (forall x, Scipy.lognorm_pdf x App.sigma (exp App.mu) = Fin (f x))
    /\ App.prob_between low high = Fin (RiemannInt pr).
Proof.
  intros Hlh.
  assert (Cd : forall x, low <= x <= high ->
                 continuity_pt App_density_value x)
    by (intros x _; apply App_density_value_continuity).
  exists App_density_value.
  exists (continuity_implies_RiemannInt Hlh Cd).
  split; [apply App_lognorm_pdf_value|].
  rewrite (integral_eq_antiderivative App_density_value App_cdf_value).
  - unfold App.prob_between. rewrite !App_lognorm_cdf_value.
    cbn [fsub fneg fadd]. reflexivity.
  - exact Hlh.
  - exact Cd.
  - intros c _. apply App_cdf_value_deriv_all.
Qed.

Lemma App_range_probability_is_area_witness :
  exists (f : R -> R) (pr : Riemann_integrable f 25000 100000),
    (forall x, Scipy.lognorm_pdf x App.sigma (exp App.mu) = Fin (f x))
    /\ App.prob_between 25000 100000 = Fin (RiemannInt pr).
Proof.
  apply (App_range_probability_is_area 25000 100000). lra.
Defined.

(** The probability mass of the plotted density: over [0, x] it is below 1
    and as close to 1 as wanted once [x] is large enough. *)
Theorem App_density_total_mass (eps : R) :
  0 < eps ->
  exists big, forall x, big <= x ->
    exists (f : R -> R) (pr : Riemann_integrable f 0 x),
      (forall t, Scipy.lognorm_pdf t App.sigma (exp App.mu) = Fin (f t))
      /\ 1 - eps < RiemannInt pr < 1.
Proof.
  intros He.
  exists (exp (App.mu + App.sigma * Rmax 2 (/ eps))). intros x Hx.
  assert (Hx0 : 0 <= x)
    by (pose proof (exp_pos (App.mu + App.sigma * Rmax 2 (/ eps))); lra).
  assert (Cd : forall t, 0 <= t <= x -> continuity_pt App_density_value t)
    by (intros t _; apply App_density_value_continuity).
  exists App_density_value.
  exists (continuity_implies_RiemannInt Hx0 Cd).
  split; [apply App_lognorm_pdf_value|].
  rewrite (integral_eq_antiderivative App_density_value App_cdf_value);
    [| exact Hx0 | exact Cd | intros c _; apply App_cdf_value_deriv_all].
  replace (App_cdf_value 0) with 0
    by (unfold App_cdf_value; destruct (Rlt_dec 0 0); [lra | reflexivity]).
  pose proof (App_cdf_value_upper_end eps He x Hx).
  pose proof (App_cdf_value_bounds x). lra.
Qed.

Lemma App_density_total_mass_witness :
  exists big, forall x, big <= x ->
    exists (f : R -> R) (pr : Riemann_integrable f 0 x),
      (forall t, Scipy.lognorm_pdf t App.sigma (exp App.mu) = Fin (f t))
      /\ 1 - 0.001 < RiemannInt pr < 1.
Proof.
  apply (App_density_total_mass 0.001). lra.
Defined.

(** ** The ends of the cumulative formula of [App2.py] *)

Lemma tanh_upper_gap (y : R) : 0 < 1 - tanh y <= 2 * exp (- (2 * y)).
Proof.
  rewrite tanh_exp_neg. pose proof (exp_pos (- (2 * y))) as He.
  set (e := exp (- (2 * y))) in *.
  replace (1 - (1 - e) / (1 + e)) with (2 * e / (1 + e)) by (field; lra).
  assert (Hi : 0 < / (1 + e)) by (apply Rinv_0_lt_compat; lra).
  assert (Hi1 : / (1 + e) <= 1).
  { rewrite <- Rinv_1. apply Rinv_le_contravar; lra. }
  unfold Rdiv. split; nra.
Qed.

Lemma tanh_lower_gap (y : R) : 0 < 1 + tanh y <= 2 * exp (2 * y).
Proof.
  rewrite tanh_exp_neg. pose proof (exp_pos (- (2 * y))) as He.
  assert (Hinv : exp (2 * y) = / exp (- (2 * y)))
    by (rewrite exp_Ropp, Rinv_inv; reflexivity).
  rewrite Hinv.
  set (e := exp (- (2 * y))) in *.
  replace (1 + (1 - e) / (1 + e)) with (2 / (1 + e)) by (field; lra).
  assert (Hi : 0 < / (1 + e)) by (apply Rinv_0_lt_compat; lra).
  assert (Hi2 : / (1 + e) <= / e) by (apply Rinv_le_contravar; lra).
  unfold Rdiv. split; nra.
Qed.

Lemma App2_cdf_real_upper_end (eps : R) :
  0 < eps ->
  forall x, exp (App2.mu + App2.sigma * Rmax 2 (/ (eps / 2))) <= x ->
            1 - eps < App2.cdf_real x < 1 + eps.
Proof.
  intros He x Hx.
  pose proof sigma_pos as Hs.
  assert (He2 : 0 < eps / 2) by lra.
  set (Z := Rmax 2 (/ (eps / 2))) in *.
  assert (HZ : 2 <= Z) by apply Rmax_l.
  assert (HZe : / (eps / 2) <= Z) by apply Rmax_r.
  assert (Hxpos : 0 < x)
    by (pose proof (exp_pos (App2.mu + App2.sigma * Z)); lra).
  unfold App2.cdf_real. cbv zeta.
  set (z := (ln x - App2.mu) / App2.sigma).
  assert (Hln : App2.mu + App2.sigma * Z <= ln x).
  { rewrite <- (ln_exp (App2.mu + App2.sigma * Z)).
    apply ln_mono_le; [apply exp_pos | exact Hx]. }
  assert (Hz : Z <= z).
  { unfold z. apply Rmult_le_reg_r with App2.sigma; [exact Hs|].
    unfold Rdiv. rewrite Rmult_assoc, Rinv_l by lra. lra. }
  pose proof sqrt2_bounds as [Hs2 _].
  pose proof sqrt_two_over_pi_bounds as [Hc0 Hc1].
  pose proof (tanh_upper_gap (sqrt 2 * z / 2)) as [Hg0 Hg1].
  assert (Hexp1 : exp (- (2 * (sqrt 2 * z / 2))) < eps / 2).
  { apply Rle_lt_trans with (exp (- z)).
    - apply exp_mono_le. nra.
    - apply exp_neg_small; [exact He2 | lra]. }
  assert (Habs : Z <= Rabs z) by (rewrite Rabs_right; lra).
  assert (Hexp2 : exp (- (z * z) / 2) < eps / 2).
  { replace (- (z * z) / 2) with (- (z * z / 2)) by (unfold Rdiv; ring).
    apply exp_neg_small; [exact He2|].
    apply half_square_large; [exact He2 | exact Habs]. }
  pose proof (exp_pos (- (z * z) / 2)) as Hp.
  split; nra.
Qed.

Lemma App2_cdf_real_lower_end (eps : R) :
  0 < eps ->
  forall x, 0 < x <= exp (App2.mu - App2.sigma * Rmax 2 (/ (eps / 2))) ->
            0 < App2.cdf_real x < eps.
Proof.
  intros He x [Hxpos Hx].
  pose proof sigma_pos as Hs.
  assert (He2 : 0 < eps / 2) by lra.
  set (Z := Rmax 2 (/ (eps / 2))) in *.
  assert (HZ : 2 <= Z) by apply Rmax_l.
  assert (HZe : / (eps / 2) <= Z) by apply Rmax_r.
  unfold App2.cdf_real. cbv zeta.
  set (z := (ln x - App2.mu) / App2.sigma).
  assert (Hln : ln x <= App2.mu - App2.sigma * Z).
  { rewrite <- (ln_exp (App2.mu - App2.sigma * Z)).
    apply ln_mono_le; [exact Hxpos | exact Hx]. }
  assert (Hz : z <= - Z).
  { unfold z. apply Rmult_le_reg_r with App2.sigma; [exact Hs|].
    unfold Rdiv. rewrite Rmult_assoc, Rinv_l by lra. lra. }
  pose proof sqrt2_bounds as [Hs2 _].
  pose proof sqrt_two_over_pi_bounds as [Hc0 Hc1].
  pose proof (tanh_lower_gap (sqrt 2 * z / 2)) as [Hg0 Hg1].
  assert (Hexp1 : exp (2 * (sqrt 2 * z / 2)) < eps / 2).
  { apply Rle_lt_trans with (exp (- (- z))).
    - apply exp_mono_le. nra.
    - apply exp_neg_small; [exact He2 | lra]. }
  assert (Habs : Z <= Rabs z) by (rewrite Rabs_left1; lra).
  assert (Hexp2 : exp (- (z * z) / 2) < eps / 2).
  { replace (- (z * z) / 2) with (- (z * z / 2)) by (unfold Rdiv; ring).
    apply exp_neg_small; [exact He2|].
    apply half_square_large; [exact He2 | exact Habs]. }
  pose proof (exp_pos (- (z * z) / 2)) as Hp.
  split; nra.
Qed.

(** The cumulative formula of [App2.py], although it is not monotone and
    exceeds 1 in between, has the right ends: its value is within any
    tolerance of 1 for all large enough incomes and within any tolerance
    of 0 for all small enough positive incomes. *)
Theorem App2_cumulative_limits (eps : R) :
  0 < eps ->
  (exists big, forall x, big <= x ->
     exists r, App2.lognorm_cdf (Fin x) (Fin App2.sigma) App2.scale = Fin r
               /\ 1 - eps < r < 1 + eps)
  /\ (exists small, 0 < small /\ forall x, 0 < x <= small ->
     exists r, App2.lognorm_cdf (Fin x) (Fin App2.sigma) App2.scale = Fin r
               /\ 0 < r < eps).
Proof.
  intros He. split.
  - exists (exp (App2.mu + App2.sigma * Rmax 2 (/ (eps / 2)))). intros x Hx.
    assert (Hxpos : 0 < x)
      by (pose proof (exp_pos
             (App2.mu + App2.sigma * Rmax 2 (/ (eps / 2)))); lra).
    exists (App2.cdf_real x).
    split; [apply App2_lognorm_cdf_finite, Hxpos|].
    apply App2_cdf_real_upper_end; assumption.
  - exists (exp (App2.mu - App2.sigma * Rmax 2 (/ (eps / 2)))).
    split; [apply exp_pos|]. intros x Hx.
    exists (App2.cdf_real x).
    split; [apply App2_lognorm_cdf_finite; lra|].
    apply App2_cdf_real_lower_end; assumption.
Qed.

Lemma App2_cumulative_limits_witness :
  (exists big, forall x, big <= x ->
     exists r, App2.lognorm_cdf (Fin x) (Fin App2.sigma) App2.scale = Fin r
               /\ 1 - 0.001 < r < 1 + 0.001)
  /\ (exists small, 0 < small /\ forall x, 0 < x <= small ->
     exists r, App2.lognorm_cdf (Fin x) (Fin App2.sigma) App2.scale = Fin r
               /\ 0 < r < 0.001).
Proof.
  apply (App2_cumulative_limits 0.001). lra.
Defined.

(** The cumulative function of [app.py] is symmetric about the median on
    the logarithmic scale: the share at or below [k] times the median and
    the share at or below the median divided by [k] add up to 1. *)
Theorem App_cumulative_log_symmetry (k : R) :
  0 < k ->
  exists p q,
    Scipy.lognorm_cdf (exp App.mu * k) App.sigma (exp App.mu) = Fin p
    /\ Scipy.lognorm_cdf (exp App.mu / k) App.sigma (exp App.mu) = Fin q
    /\ p + q = 1.
Proof.
  intros Hk.
  pose proof (exp_pos App.mu) as He.
  pose proof (Rinv_0_lt_compat _ Hk) as Hik.
  pose proof App_sigma_pos as Hs.
  assert (H1 : 0 < exp App.mu * k) by (apply Rmult_lt_0_compat; assumption).
  assert (H2 : 0 < exp App.mu / k) by (apply Rmult_lt_0_compat; assumption).
  exists (Scipy.ndtr (ln k / App.sigma)),
         (Scipy.ndtr (- (ln k / App.sigma))).
  split; [|split].
  - rewrite (App_lognorm_cdf_pos _ H1).
    rewrite ln_mult, ln_exp by assumption.
    replace ((App.mu + ln k - App.mu) / App.sigma) with (ln k / App.sigma)
      by (unfold Rdiv; ring).
    reflexivity.
  - rewrite (App_lognorm_cdf_pos _ H2).
    unfold Rdiv at 2. rewrite ln_mult, ln_exp, ln_Rinv by assumption.
    replace ((App.mu + - ln k - App.mu) / App.sigma)
      with (- (ln k / App.sigma)) by (unfold Rdiv; ring).
    reflexivity.
  - rewrite ndtr_opp. ring.
Qed.

Lemma App_cumulative_log_symmetry_witness :
  exists p q,
    Scipy.lognorm_cdf (exp App.mu * 2) App.sigma (exp App.mu) = Fin p
    /\ Scipy.lognorm_cdf (exp App.mu / 2) App.sigma (exp App.mu) = Fin q
    /\ p + q = 1.
Proof.
  apply (App_cumulative_log_symmetry 2). lra.
Defined.

(** ** C7: the ends of both cumulative functions *)

(** C7: both cumulative functions return 0 at [x = 0]; at
    [10 * scale * exp (5 sigma)], as well as at every larger income, both
    exceed 0.999; and both approach 1 as the income grows without bound:
    for every tolerance [eps > 0] there is an income from which on the
    value of [App2.py] lies within [eps] of 1 and the value of [app.py]
    lies between [1 - eps] and 1. *)
Theorem C7_cumulative_ends :
  App2.lognorm_cdf (Fin 0) (Fin App2.sigma) App2.scale = Fin 0
  /\ Scipy.lognorm_cdf 0 App.sigma (exp App.mu) = Fin 0
  /\ (exists r,
        App2.lognorm_cdf
          (lit 10 * App2.scale * np_exp (lit 5 * Fin App2.sigma))%fl
          (Fin App2.sigma) App2.scale = Fin r
        /\ 0.999 < r)
  /\ (exists r,
        Scipy.lognorm_cdf (10 * exp App.mu * exp (5 * App.sigma))
          App.sigma (exp App.mu) = Fin r
        /\ 0.999 < r)
  /\ (forall x, 10 * exp App2.mu * exp (5 * App2.sigma) <= x ->
        exists r,
          App2.lognorm_cdf (Fin x) (Fin App2.sigma) App2.scale = Fin r
          /\ 0.999 < r)
  /\ (forall x, 10 * exp App.mu * exp (5 * App.sigma) <= x ->
        exists r,
          Scipy.lognorm_cdf x App.sigma (exp App.mu) = Fin r
          /\ 0.999 < r)
  /\ (forall eps, 0 < eps ->
        exists big, forall x, big <= x ->
          exists r,
            App2.lognorm_cdf (Fin x) (Fin App2.sigma) App2.scale = Fin r
            /\ 1 - eps < r < 1 + eps)
  /\ (forall eps, 0 < eps ->
        exists big, forall x, big <= x ->
          exists r,
            Scipy.lognorm_cdf x App.sigma (exp App.mu) = Fin r
            /\ 1 - eps < r < 1).
Proof.
  assert (Hfar2 : forall x, 10 * exp App2.mu * exp (5 * App2.sigma) <= x ->
            exists r,
              App2.lognorm_cdf (Fin x) (Fin App2.sigma) App2.scale = Fin r
              /\ 0.999 < r).
  { intros x Hx.
    assert (Hpos : 0 < x).
    { pose proof (exp_pos App2.mu). pose proof (exp_pos (5 * App2.sigma)).
      assert (0 < 10 * exp App2.mu * exp (5 * App2.sigma))
        by (apply Rmult_lt_0_compat; [apply Rmult_lt_0_compat|]; lra).
      lra. }
    exists (App2.cdf_real x). split; [apply App2_lognorm_cdf_finite, Hpos|].
    unfold App2.cdf_real. cbv zeta.
    apply cdf_shape_far, far_income_z; [apply sigma_pos | exact Hx]. }
  assert (Hfar1 : forall x, 10 * exp App.mu * exp (5 * App.sigma) <= x ->
            exists r,
              Scipy.lognorm_cdf x App.sigma (exp App.mu) = Fin r
              /\ 0.999 < r).
  { intros x Hx.
    assert (Hpos : 0 < x).
    { pose proof (exp_pos App.mu). pose proof (exp_pos (5 * App.sigma)).
      assert (0 < 10 * exp App.mu * exp (5 * App.sigma))
        by (apply Rmult_lt_0_compat; [apply Rmult_lt_0_compat|]; lra).
      lra. }
    eexists. split; [apply App_lognorm_cdf_pos, Hpos|].
    pose proof (far_income_z App.mu App.sigma x App_sigma_pos Hx) as Hz.
    pose proof (ndtr_tail ((ln x - App.mu) / App.sigma)) as Ht.
    assert (3.55 <= (ln x - App.mu) / App.sigma) by lra.
    specialize (Ht H). lra. }
  split; [exact App2_lognorm_cdf_zero|].
  split; [exact App_lognorm_cdf_zero|].
  split; [|split; [|split; [exact Hfar2 | split; [exact Hfar1 | split]]]].
  - unfold App2.scale at 1. cbn [np_exp lit fmul].
    apply Hfar2. lra.
  - apply Hfar1. lra.
  - intros eps He.
    exists (exp (App2.mu + App2.sigma * Rmax 2 (/ (eps / 2)))). intros x Hx.
    assert (Hxpos : 0 < x)
      by (pose proof (exp_pos
             (App2.mu + App2.sigma * Rmax 2 (/ (eps / 2)))); lra).
    exists (App2.cdf_real x).
    split; [apply App2_lognorm_cdf_finite, Hxpos|].
    apply App2_cdf_real_upper_end; assumption.
  - intros eps He.
    exists (exp (App.mu + App.sigma * Rmax 2 (/ eps))). intros x Hx.
    exists (App_cdf_value x). split; [apply App_lognorm_cdf_value|].
    split; [apply App_cdf_value_upper_end; assumption|].
    apply App_cdf_value_bounds.
Qed.
